(** * Multithreaded file compression tool: the streaming codec loop and the
      worker pool of [task2.cpp]

    The development embeds the two functions of [task2.cpp] that carry the
    program's logic:

    - [processFile]: opens the source and the destination, drives zlib's
      [deflate] / [inflate] over the source in chunks of one buffer, and
      writes what the transform produces;
    - [processFiles]: starts [numThreads] workers that claim task indices
      from a shared cursor under a mutex and run [processFile] on them.

    zlib itself is an external library.  Its calling interface is taken as
    a parameter ([zlib] below), so a theorem stated over an arbitrary [zlib]
    holds of every transform that is a function of its state and of its
    arguments.  A small store-only instance ([Ref.api]) is used where a
    statement has to be evaluated on a concrete transform. *)

From Stdlib Require Import ZArith Lia.
From Stdlib.Strings Require Import Byte Ascii.
From stdpp Require Import base list strings gmap.
From stdpp Require Import pretty.

Local Open Scope Z_scope.
Local Open Scope nat_scope.

(** ** Data model *)

Abbreviation bytes := (list Byte.byte).

(** Return codes and flush modes of [zlib.h]. *)
Definition Z_OK : Z := 0%Z.
Definition Z_STREAM_END : Z := 1%Z.
Definition Z_NEED_DICT : Z := 2%Z.
Definition Z_STREAM_ERROR : Z := (-2)%Z.
Definition Z_DATA_ERROR : Z := (-3)%Z.
Definition Z_MEM_ERROR : Z := (-4)%Z.
Definition Z_BUF_ERROR : Z := (-5)%Z.
Definition Z_NO_FLUSH : Z := 0%Z.
Definition Z_FINISH : Z := 4%Z.
Definition Z_DEFAULT_COMPRESSION : Z := (-1)%Z.

(** [struct CompressionTask]. *)
Record CompressionTask := {
  inputPath : string;
  outputPath : string;
  compress : bool;
  level : Z
}.

(** What one call of [deflate] / [inflate] leaves behind in the [z_stream]:
    the return code, the internal state, the input not yet consumed
    ([next_in], [avail_in]) and the bytes stored at [next_out].  zlib
    decrements [avail_out] by the number of bytes it stores. *)
Record zresult (zstate : Type) := {
  ret : Z;
  state_after : zstate;
  rest_in : bytes;
  out : bytes
}.
Arguments ret {zstate} _.
Arguments state_after {zstate} _.
Arguments rest_in {zstate} _.
Arguments out {zstate} _.

(** The part of zlib's interface that [processFile] calls.  [deflate] and
    [inflate] take the internal state, the input at [next_in], [avail_out]
    and the flush mode.  The return codes of [deflateInit] / [inflateInit]
    are dropped by the caller, so the initialisers only yield a state. *)
Record zlib := {
  zstate : Type;
  deflateInit : Z -> zstate;
  inflateInit : zstate;
  deflate : zstate -> bytes -> nat -> Z -> zresult zstate;
  inflate : zstate -> bytes -> nat -> Z -> zresult zstate
}.

(** The calls made to zlib by one run of [processFile], in order. *)
Inductive zcall :=
| CdeflateInit (lvl : Z)
| CinflateInit
| Cdeflate (avail_in : nat) (flush : Z) (r : Z)
| Cinflate (avail_in : nat) (flush : Z) (r : Z)
| CdeflateEnd
| CinflateEnd.

(** The file store: contents by path, and the paths on which opening for
    reading, respectively for writing, fails whatever the contents. *)
Record FS := {
  files : gmap string bytes;
  noread : gset string;
  nowrite : gset string
}.

(** A line on [cerr] or on [cout].  Every line is written while [mtx] is
    held, so the console is a sequence of whole lines. *)
Inductive line :=
| Cerr (s : string)
| Cout (s : string).

(** How a run of [processFile] ended.  [OutOfFuel] is the model's account of
    a loop that was still running when the step budget ran out. *)
Inductive outcome :=
| Processed
| InputOpenError
| OutputOpenError
| StreamError
| OutOfFuel.

Record result := {
  fs_after : FS;
  printed : list line;
  status : outcome;
  calls : list zcall
}.

(** ** [std::ifstream] *)

(** The unread part of the file and the stream's [eofbit]; [read] sets
    [failbit] together with [eofbit], and a stream with either set reads
    nothing. *)
Record ifstream := {
  unread : bytes;
  eofbit : bool
}.

(** [inFile.read(buf, n)] followed by [inFile.gcount()]: [n] bytes when the
    file still has that many, and then [eofbit] stays clear; otherwise what
    is left, with [eofbit] set. *)
Definition ifstream_read (s : ifstream) (n : nat) : bytes * ifstream :=
  if eofbit s then ([], s)
  else if n <=? length (unread s)
  then (take n (unread s), {| unread := drop n (unread s); eofbit := false |})
  else (unread s, {| unread := []; eofbit := true |}).

(** [ifstream inFile(path, ios::binary)] succeeds on an existing, readable
    file. *)
Definition can_open_in (fs : FS) (p : string) : bool :=
  bool_decide (is_Some (files fs !! p)) && bool_decide (p ∉ noread fs).

(** [ofstream outFile(path, ios::binary)] succeeds on a writable path, and
    then creates the file or truncates it. *)
Definition can_open_out (fs : FS) (p : string) : bool :=
  bool_decide (p ∉ nowrite fs).

Definition set_file (fs : FS) (p : string) (b : bytes) : FS :=
  {| files := <[p := b]> (files fs); noread := noread fs; nowrite := nowrite fs |}.

(** ** [processFile] *)

Inductive loop_status := LoopDone | LoopError | LoopFuel.

Record looped (zstate : Type) := {
  lstatus : loop_status;
  lstate : zstate;
  lout : bytes;
  lcalls : list zcall
}.
Arguments lstatus {zstate} _.
Arguments lstate {zstate} _.
Arguments lout {zstate} _.
Arguments lcalls {zstate} _.

(** The size of [inBuffer] and of [outBuffer]. *)
Definition BUFFER_SIZE : nat := 1024 * 1024.
Arguments BUFFER_SIZE : simpl never.

Section Codec.
Context (z : zlib).

Definition transform (compress eof : bool) (zs : zstate z) (avail : bytes)
    (avail_out : nat) : zresult (zstate z) :=
  if compress
  then deflate z zs avail avail_out (if eof then Z_FINISH else Z_NO_FLUSH)
  else inflate z zs avail avail_out Z_NO_FLUSH.

Definition transform_call (compress eof : bool) (avail : bytes) (r : Z) : zcall :=
  if compress
  then Cdeflate (length avail) (if eof then Z_FINISH else Z_NO_FLUSH) r
  else Cinflate (length avail) Z_NO_FLUSH r.

(** The [do { ... } while (zs.avail_out == 0)] loop over one input chunk.
    [outsz] is [outBuffer.size()], [avail] the input still at [next_in],
    [eof] the value of [inFile.eof()], which the loop does not change. *)
Fixpoint drain (fuel : nat) (compress eof : bool) (outsz : nat)
    (zs : zstate z) (avail : bytes) : looped (zstate z) :=
  match fuel with
  | O => {| lstatus := LoopFuel; lstate := zs; lout := []; lcalls := [] |}
  | S fuel' =>
    let r := transform compress eof zs avail outsz in
    let c := transform_call compress eof avail (ret r) in
    if (ret r =? Z_STREAM_ERROR)%Z
    then {| lstatus := LoopError; lstate := state_after r; lout := []; lcalls := [c] |}
    else
      let avail_out := outsz - length (out r) in
      let bytesWritten := outsz - avail_out in
      let w := take bytesWritten (out r) in
      if avail_out =? 0
      then
        let d := drain fuel' compress eof outsz (state_after r) (rest_in r) in
        {| lstatus := lstatus d; lstate := lstate d;
           lout := w ++ lout d; lcalls := c :: lcalls d |}
      else {| lstatus := LoopDone; lstate := state_after r; lout := w; lcalls := [c] |}
  end.

(** The [while (true)] loop: read one buffer, stop on an empty read, drain
    the chunk.  [insz] is [inBuffer.size()].  [fuel] bounds the number of
    reads, [dfuel] the iterations of each drain loop. *)
Fixpoint chunk_loop (fuel dfuel : nat) (compress : bool) (insz outsz : nat)
    (inFile : ifstream) (zs : zstate z) : looped (zstate z) :=
  match fuel with
  | O => {| lstatus := LoopFuel; lstate := zs; lout := []; lcalls := [] |}
  | S fuel' =>
    let '(chunk, inFile') := ifstream_read inFile insz in
    let bytesRead := length chunk in
    if bytesRead =? 0
    then {| lstatus := LoopDone; lstate := zs; lout := []; lcalls := [] |}
    else
      let d := drain dfuel compress (eofbit inFile') outsz zs chunk in
      match lstatus d with
      | LoopDone =>
        let k := chunk_loop fuel' dfuel compress insz outsz inFile' (lstate d) in
        {| lstatus := lstatus k; lstate := lstate k;
           lout := lout d ++ lout k; lcalls := lcalls d ++ lcalls k |}
      | _ => d
      end
  end.

Definition init_call (compress : bool) (level : Z) : zcall :=
  if compress then CdeflateInit level else CinflateInit.

Definition end_call (compress : bool) : zcall :=
  if compress then CdeflateEnd else CinflateEnd.

(** [processFile].  The destination is truncated when it is opened, so the
    source is read from the store as it is after that.  What was written
    before a failure stays in the destination.  [fuel] is the step budget of
    the two loops; a run that exhausts it ends as [OutOfFuel]. *)
Definition processFile (fuel : nat) (fs : FS) (inputPath outputPath : string)
    (compress : bool) (level : Z) : result :=
  if negb (can_open_in fs inputPath)
  then {| fs_after := fs;
          printed := [Cerr ("Error opening input file: " +:+ inputPath)];
          status := InputOpenError; calls := [] |}
  else if negb (can_open_out fs outputPath)
  then {| fs_after := fs;
          printed := [Cerr ("Error opening output file: " +:+ outputPath)];
          status := OutputOpenError; calls := [] |}
  else
    let fs1 := set_file fs outputPath [] in
    let inFile := {| unread := default [] (files fs1 !! inputPath); eofbit := false |} in
    let zs := if compress then deflateInit z level else inflateInit z in
    let k := chunk_loop fuel fuel compress BUFFER_SIZE BUFFER_SIZE inFile zs in
    let fs2 := set_file fs1 outputPath (lout k) in
    match lstatus k with
    | LoopError =>
      {| fs_after := fs2;
         printed := [Cerr "Error during compression/decompression"];
         status := StreamError;
         calls := init_call compress level :: lcalls k |}
    | LoopFuel =>
      {| fs_after := fs2; printed := []; status := OutOfFuel;
         calls := init_call compress level :: lcalls k |}
    | LoopDone =>
      {| fs_after := fs2;
         printed := [Cout ("Processed: " +:+ inputPath +:+ " -> " +:+ outputPath)];
         status := Processed;
         calls := init_call compress level :: lcalls k ++ [end_call compress] |}
    end.

End Codec.

(** ** [processFiles] *)

(** Where a worker thread stands: about to enter the critical section that
    claims an index, holding [taskIndex] and about to call [processFile], or
    returned from the worker lambda. *)
Inductive worker :=
| Claiming
| Running (taskIndex : nat)
| Returned.

(** The state shared by the threads of one [processFiles] call: the cursor
    [currentTask], the threads, the file store and the console.  [claimed]
    and [executed] record, for the proofs only, which thread took which index
    and which thread ran which index, in the order in which it happened. *)
Record Pool := {
  currentTask : nat;
  threads : list worker;
  store : FS;
  console : list line;
  claimed : list (nat * nat);
  executed : list (nat * nat)
}.

Section Pool.
Context (z : zlib).

(** One step of thread [i].  The block guarded by [taskMutex] is one step:
    it either returns, when the cursor has reached [tasks.size()], or
    takes the cursor's value and increments it.  The call of [processFile]
    is the other step; it is taken whole, so the file operations of two
    calls are not interleaved here, only the calls are.  A thread that has
    returned, or an [i] that names no thread, leaves the pool as it is. *)
Definition worker_step (fuel : nat) (tasks : list CompressionTask) (i : nat)
    (p : Pool) : Pool :=
  match threads p !! i with
  | Some Claiming =>
    if length tasks <=? currentTask p
    then {| currentTask := currentTask p;
            threads := <[i := Returned]> (threads p);
            store := store p; console := console p;
            claimed := claimed p; executed := executed p |}
    else
      let taskIndex := currentTask p in
      {| currentTask := S (currentTask p);
         threads := <[i := Running taskIndex]> (threads p);
         store := store p; console := console p;
         claimed := claimed p ++ [(i, taskIndex)]; executed := executed p |}
  | Some (Running taskIndex) =>
    match tasks !! taskIndex with
    | Some task =>
      let r := processFile z fuel (store p) (inputPath task) (outputPath task)
                 (compress task) (level task) in
      {| currentTask := currentTask p;
         threads := <[i := Claiming]> (threads p);
         store := fs_after r; console := console p ++ printed r;
         claimed := claimed p; executed := executed p ++ [(i, taskIndex)] |}
    | None => p
    end
  | _ => p
  end.

(** The pool of the spawning loop [for (int i = 0; i < numThreads; ++i)]:
    [numThreads] threads when that is positive, none otherwise, and the
    cursor at 0.  A thread that the loop has not yet created is one that the
    interleaving has not yet let move. *)
Definition spawn (numThreads : Z) (fs : FS) : Pool :=
  {| currentTask := 0;
     threads := replicate (Z.to_nat numThreads) Claiming;
     store := fs; console := [];
     claimed := []; executed := [] |}.

Definition run_schedule (fuel : nat) (tasks : list CompressionTask)
    (sched : list nat) (p : Pool) : Pool :=
  foldl (fun q i => worker_step fuel tasks i q) p sched.

(** [processFiles] under the interleaving [sched], which names the thread
    that moves at each step. *)
Definition processFiles (fuel : nat) (tasks : list CompressionTask)
    (numThreads : Z) (sched : list nat) (fs : FS) : Pool :=
  run_schedule fuel tasks sched (spawn numThreads fs).

Definition has_returned (w : worker) : bool :=
  match w with Returned => true | _ => false end.

(** Every [join] has come back: [processFiles] returns. *)
Definition joined (p : Pool) : bool := forallb has_returned (threads p).

End Pool.

(** ** A reference transform *)

(** A store-only codec with zlib's calling conventions, for evaluating the
    loops on a concrete transform.  The compressed form of [b] is the byte
    [0x78] followed by [b].  Like zlib's [deflate] it may hold input back
    until it is called with [Z_FINISH]; it holds back all of it.  [inflate]
    answers [Z_DATA_ERROR] to a stream that does not start with [0x78], and
    both answer [Z_STREAM_ERROR] on a state that was not initialised for
    them. *)
Module Ref.

Definition magic : Byte.byte := x78.

Inductive istate := IHeader | IBody | IBad.

Inductive state :=
| Deflating (finished : bool) (held pending : bytes)
| Inflating (i : istate)
| Invalid.

Definition deflateInit (level : Z) : state :=
  if ((-1 <=? level) && (level <=? 9))%Z then Deflating false [] [] else Invalid.

Definition inflateInit : state := Inflating IHeader.

Definition deflate (zs : state) (input : bytes) (avail_out : nat) (flush : Z)
    : zresult state :=
  match zs with
  | Deflating finished held pending =>
    let finishing := (flush =? Z_FINISH)%Z && negb finished in
    let held' := if finished then held else held ++ input in
    let pending' := if finishing then pending ++ magic :: held' else pending in
    let finished' := finished || finishing in
    let o := take avail_out pending' in
    let left := drop avail_out pending' in
    {| ret := if finished' && bool_decide (length left = 0) then Z_STREAM_END else Z_OK;
       state_after := Deflating finished' (if finishing then [] else held') left;
       rest_in := if finished then input else [];
       out := o |}
  | _ => {| ret := Z_STREAM_ERROR; state_after := zs; rest_in := input; out := [] |}
  end.

Definition inflate_body (input : bytes) (avail_out : nat) : zresult state :=
  {| ret := Z_OK; state_after := Inflating IBody;
     rest_in := drop avail_out input; out := take avail_out input |}.

Definition inflate (zs : state) (input : bytes) (avail_out : nat) (flush : Z)
    : zresult state :=
  match zs with
  | Inflating IHeader =>
    match input with
    | [] => {| ret := Z_BUF_ERROR; state_after := zs; rest_in := []; out := [] |}
    | h :: t =>
      if Byte.eqb h magic then inflate_body t avail_out
      else {| ret := Z_DATA_ERROR; state_after := Inflating IBad;
              rest_in := input; out := [] |}
    end
  | Inflating IBody => inflate_body input avail_out
  | Inflating IBad =>
    {| ret := Z_DATA_ERROR; state_after := zs; rest_in := input; out := [] |}
  | _ => {| ret := Z_STREAM_ERROR; state_after := zs; rest_in := input; out := [] |}
  end.

Definition api : zlib :=
  Build_zlib state deflateInit inflateInit deflate inflate.

(** The number of bytes this transform can still put out from a state and
    the input at [next_in] without being given new input. *)
Definition owed (zs : state) (avail : bytes) : nat :=
  match zs with
  | Deflating finished held pending =>
    length pending + (if finished then 0 else S (length held + length avail))
  | Inflating _ => length avail
  | Invalid => 0
  end.

End Ref.

(** ** Notions used in the statements *)

(** A call of [deflate] with [Z_FINISH]. *)
Definition signals_finish (c : zcall) : bool :=
  match c with
  | Cdeflate _ flush _ => (flush =? Z_FINISH)%Z
  | _ => false
  end.

(** The assumption on the transform under which the drain loop ends: some
    quantity [owed] of the state and the input at [next_in] goes down with
    every call that fills an output buffer of [outsz] bytes.  For zlib it is
    the output still to come from a finite input. *)
Definition bounded_output (z : zlib) (outsz : nat)
    (owed : zstate z -> bytes -> nat) : Prop :=
  forall (compress eof : bool) (zs : zstate z) (avail : bytes),
    let r := transform z compress eof zs avail outsz in
    ret r <> Z_STREAM_ERROR ->
    outsz <= length (out r) ->
    owed (state_after r) (rest_in r) < owed zs avail.

(** The bytes a stream can still deliver, counting the read that finds the
    end. *)
Definition reads_left (s : ifstream) : nat :=
  if eofbit s then 0 else S (length (unread s)).

(** A task that cannot be opened at any point of a batch whose other tasks
    are [others]: its source or its destination is barred, or its source
    does not exist and none of the others writes it. *)
Definition unopenable (fs : FS) (others : list CompressionTask)
    (t : CompressionTask) : Prop :=
  inputPath t ∈ noread fs
  \/ outputPath t ∈ nowrite fs
  \/ (files fs !! inputPath t = None
      /\ forall u, u ∈ others -> outputPath u <> inputPath t).

(** The pairs (thread, index) of the threads that hold an index and have not
    yet run it, the first thread of [ws] being thread [i]. *)
Fixpoint running_from (i : nat) (ws : list worker) : list (nat * nat) :=
  match ws with
  | [] => []
  | Running k :: ws' => (i, k) :: running_from (S i) ws'
  | _ :: ws' => running_from (S i) ws'
  end.

(** The number of threads that have not returned. *)
Fixpoint unreturned (ws : list worker) : nat :=
  match ws with
  | [] => 0
  | Returned :: ws' => unreturned ws'
  | _ :: ws' => S (unreturned ws')
  end.

(** The steps still open in a pool: two for every index not yet claimed, one
    for every index held, one for every thread that has not returned. *)
Definition steps_left (tasks : list CompressionTask) (p : Pool) : nat :=
  2 * (length tasks - currentTask p)
  + length (running_from 0 (threads p)) + unreturned (threads p).

(** What holds of every pool that [processFiles] reaches. *)
Record pool_inv (tasks : list CompressionTask) (p : Pool) : Prop := {
  inv_cursor : currentTask p <= length tasks;
  inv_claimed : (claimed p).*2 = seq 0 (currentTask p);
  inv_executed : claimed p ≡ₚ executed p ++ running_from 0 (threads p);
  inv_returned : Returned ∈ threads p -> currentTask p = length tasks
}.

(** The batch without its task [k], seen from a run of the whole batch:
    indices above [k] move down by one, and the thread that holds [k] is a
    thread that has not claimed yet. *)
Definition index_without (k j : nat) : nat := if j <? k then j else pred j.

Definition worker_without (k : nat) (w : worker) : worker :=
  match w with
  | Running j => if j =? k then Claiming else Running (index_without k j)
  | _ => w
  end.

Definition cursor_without (k c : nat) : nat := if c <=? k then c else pred c.

(** The line that [processFile] prints when it cannot open a stream of
    task [t]. *)
Definition open_diagnostic (t : CompressionTask) (d : line) : Prop :=
  d = Cerr ("Error opening input file: " +:+ inputPath t)
  \/ d = Cerr ("Error opening output file: " +:+ outputPath t).

(** [l] is [l'] with one open diagnostic of [t] put in. *)
Definition console_with (t : CompressionTask) (l l' : list line) : Prop :=
  exists l1 l2 d, open_diagnostic t d /\ l = l1 ++ d :: l2 /\ l' = l1 ++ l2.

(** The pool [q] of a run of the batch without its task [t] of index [k]
    that goes with the pool [p] of a run of the whole batch: the same
    store, the threads and the cursor as above, and the same console but
    for the diagnostic of [t] once [t] has been run. *)
Record pool_without (k : nat) (t : CompressionTask) (p q : Pool) : Prop := {
  without_cursor : currentTask q = cursor_without k (currentTask p);
  without_threads : threads q = worker_without k <$> threads p;
  without_store : store q = store p;
  without_console_after :
    k ∈ (executed p).*2 -> console_with t (console p) (console q);
  without_console_before :
    k ∉ (executed p).*2 -> console p = console q
}.

(** ** Sample inputs *)

Module Sample.

(** One full buffer of zero bytes: the first buffer of the file that the
    program's benchmark writes. *)
Definition zeros : bytes := replicate BUFFER_SIZE x00.

Definition big_disk : FS :=
  {| files := {[ "large_test_file.bin" := zeros ]}; noread := ∅; nowrite := ∅ |}.

(** A small store: a text file, an empty file, a file that is no
    compressed stream, and a path barred from reading. *)
Definition disk : FS :=
  {| files := <[ "notes.txt" := [x68; x69] ]>
              (<[ "empty.bin" := [] ]>
              (<[ "garbage.gz" := [x00; x01] ]>
              (<[ "locked.bin" := [x2a] ]> ∅)));
     noread := {[ "locked.bin" ]};
     nowrite := ∅ |}.

Definition notes : CompressionTask :=
  {| inputPath := "notes.txt"; outputPath := "out/notes.txt.gz";
     compress := true; level := 6 |}.

Definition empty : CompressionTask :=
  {| inputPath := "empty.bin"; outputPath := "out/empty.bin.gz";
     compress := true; level := 6 |}.

Definition locked : CompressionTask :=
  {| inputPath := "locked.bin"; outputPath := "out/locked.bin.gz";
     compress := true; level := 6 |}.

End Sample.


(** ** Notions for the further properties *)

(** The return code that a call of the transform came back with. *)
Definition call_ret (c : zcall) : option Z :=
  match c with
  | Cdeflate _ _ r | Cinflate _ _ r => Some r
  | _ => None
  end.

(** The calls of the Compress direction. *)
Definition compress_call (c : zcall) : bool :=
  match c with
  | CdeflateInit _ | Cdeflate _ _ _ | CdeflateEnd => true
  | _ => false
  end.

(** Tasks run one after the other, each on the store the one before has
    left: the store and the lines printed so far.  This is what a single
    thread of the worker lambda does with the tasks it claims. *)
Definition run_task (z : zlib) (fuel : nat) (acc : FS * list line)
    (t : CompressionTask) : FS * list line :=
  let r := processFile z fuel acc.1 (inputPath t) (outputPath t)
             (compress t) (level t) in
  (fs_after r, acc.2 ++ printed r).

Definition run_sequential (z : zlib) (fuel : nat) (fs : FS)
    (ts : list CompressionTask) : FS * list line :=
  foldl (run_task z fuel) (fs, []) ts.

(** The tasks that have been run, in the order in which they were. *)
Definition executed_tasks (tasks : list CompressionTask) (p : Pool)
    : list CompressionTask :=
  omap (fun e => tasks !! e.2) (executed p).

(** Two tasks that do not meet: neither writes what the other reads, and
    they write different files. *)
Definition independent (t u : CompressionTask) : Prop :=
  outputPath t <> inputPath u
  /\ outputPath u <> inputPath t
  /\ outputPath t <> outputPath u.

Fixpoint pairwise_independent (ts : list CompressionTask) : Prop :=
  match ts with
  | [] => True
  | t :: ts' => Forall (independent t) ts' /\ pairwise_independent ts'
  end.

(** Thread [i] exists and has not returned. *)
Definition live (p : Pool) (i : nat) : bool :=
  match threads p !! i with
  | Some w => negb (has_returned w)
  | None => false
  end.

(** Every step of the interleaving is a step of a thread that is live when
    it is taken. *)
Fixpoint all_live (z : zlib) (fuel : nat) (tasks : list CompressionTask)
    (sched : list nat) (p : Pool) : bool :=
  match sched with
  | [] => true
  | i :: sched' =>
    live p i && all_live z fuel tasks sched' (worker_step z fuel tasks i p)
  end.

(** ** The benchmark of [main] *)

(** Case 3 of the menu, without its timing and its console lines: the test
    file is written when it does not exist, one task compresses it on one
    thread, then four tasks are run on four threads. *)
Module Benchmark.

Definition testFile : string := "large_test_file.bin".
Definition compressedFile : string := "compressed_test.gz".

(** [std::to_string] on an [int]. *)
Definition to_string (i : Z) : string := pretty i.

(** [vector<char> data(1024 * 1024)], written 100 times. *)
Definition test_data : bytes :=
  mjoin (replicate 100 (replicate BUFFER_SIZE x00)).

(** [if (!fs::exists(testFile)) { ofstream out(testFile, ios::binary); ... }]:
    writes to a stream that could not be opened are lost. *)
Definition create_test_file (fs : FS) : FS :=
  if bool_decide (is_Some (files fs !! testFile)) then fs
  else if can_open_out fs testFile then set_file fs testFile test_data
  else fs.

(** [{{testFile, compressedFile, true}}]: the level left out is 0. *)
Definition single_tasks : list CompressionTask :=
  [ {| inputPath := testFile; outputPath := compressedFile;
       compress := true; level := 0 |} ].

(** The tasks pushed by [for (int i = 0; i < 4; i++)]. *)
Definition multi_tasks : list CompressionTask :=
  (fun i => {| inputPath := testFile +:+ to_string i;
               outputPath := compressedFile +:+ to_string i;
               compress := true; level := 0 |}) <$> seqZ 0 4.

(** The two pools of the benchmark, under the interleavings [sched1] and
    [sched2]. *)
Definition run (z : zlib) (fuel : nat) (sched1 sched2 : list nat) (fs : FS)
    : Pool * Pool :=
  let p1 := processFiles z fuel single_tasks 1 sched1 (create_test_file fs) in
  let p2 := processFiles z fuel multi_tasks 4 sched2 (store p1) in
  (p1, p2).

End Benchmark.


(** The input a call of the transform was handed ([avail_in]). *)
Definition call_avail_in (c : zcall) : nat :=
  match c with
  | Cdeflate n _ _ | Cinflate n _ _ => n
  | _ => 0
  end.

(** A transform that leaves at [next_in] no more input than it was given. *)
Definition consumes_input (z : zlib) : Prop :=
  forall (compress eof : bool) (zs : zstate z) (avail : bytes) (outsz : nat),
    length (rest_in (transform z compress eof zs avail outsz)) <= length avail.

(** ** The task lists of [main] *)

(** The members of [std::filesystem::path] that [main] calls, on paths as
    strings.  The library is external; its functions are taken as
    parameters. *)
Record path_api := {
  filename : string -> string;
  stem : string -> string;
  extension : string -> string
}.

(** An entry of a [directory_iterator]. *)
Record dir_entry := {
  entry_path : string;
  is_regular_file : bool
}.

Section Menu.
Context (P : path_api).

(** Case 1.  [listing] is [Some] of the entries that the iteration over
    [inputPath] yields, in its order, when [fs::is_directory(inputPath)],
    and [None] otherwise. *)
Definition compress_tasks (listing : option (list dir_entry))
    (inputPath outputPath : string) (compressionLevel : Z)
    : list CompressionTask :=
  match listing with
  | Some entries =>
    omap (fun entry =>
            if is_regular_file entry
            then
              let outFile :=
                outputPath +:+ "/" +:+ filename P (entry_path entry) +:+ ".gz" in
              Some {| inputPath := entry_path entry; outputPath := outFile;
                      compress := true; level := compressionLevel |}
            else None) entries
  | None =>
    let outFile := outputPath +:+ "/" +:+ filename P inputPath +:+ ".gz" in
    [ {| inputPath := inputPath; outputPath := outFile;
         compress := true; level := compressionLevel |} ]
  end.

(** Case 2.  The tasks are built without a level: it is 0. *)
Definition decompress_tasks (listing : option (list dir_entry))
    (inputPath outputPath : string) : list CompressionTask :=
  match listing with
  | Some entries =>
    omap (fun entry =>
            if is_regular_file entry
               && bool_decide (extension P (entry_path entry) = ".gz")
            then
              let outFile := outputPath +:+ "/" +:+ stem P (entry_path entry) in
              Some {| inputPath := entry_path entry; outputPath := outFile;
                      compress := false; level := 0 |}
            else None) entries
  | None =>
    let outFile := outputPath +:+ "/" +:+ stem P inputPath in
    [ {| inputPath := inputPath; outputPath := outFile;
         compress := false; level := 0 |} ]
  end.

End Menu.

Fixpoint has_slash (s : string) : bool :=
  match s with
  | EmptyString => false
  | String c s' => bool_decide (c = "/"%char) || has_slash s'
  end.

Fixpoint has_dot (s : string) : bool :=
  match s with
  | EmptyString => false
  | String c s' => bool_decide (c = "."%char) || has_dot s'
  end.

(** The path functions on the generic format with [/] as the only
    separator, for evaluating the task lists on concrete paths. *)
Module Posix.

(** What follows the last separator. *)
Fixpoint filename (s : string) : string :=
  match s with
  | EmptyString => EmptyString
  | String c s' =>
    if has_slash s' then filename s'
    else if bool_decide (c = "/"%char) then s' else s
  end.

(** What precedes the last dot. *)
Fixpoint before_last_dot (f : string) : string :=
  match f with
  | EmptyString => EmptyString
  | String c f' =>
    if has_dot f' then String c (before_last_dot f')
    else if bool_decide (c = "."%char) then EmptyString else f
  end.

(** The file name without its extension; [.], [..] and names whose only dot
    is the first character have no extension. *)
Definition stem (s : string) : string :=
  let f := filename s in
  if bool_decide (f = ".") || bool_decide (f = "..") then f
  else if bool_decide (before_last_dot f = "") then f
  else before_last_dot f.

Definition extension (s : string) : string :=
  let f := filename s in
  String.substring (String.length (stem s)) (String.length f) f.

Definition api : path_api := Build_path_api filename stem extension.

End Posix.

(** A store for the task lists of the menu: one file in a directory [data],
    beside a compressed file of an earlier run that may not be written. *)
Module MenuSample.

Definition disk : FS :=
  {| files := <[ "data/a" := [x68; x69] ]> (<[ "data/a.gz" := [] ]> ∅);
     noread := ∅;
     nowrite := {[ "data/a.gz" ]} |}.

Definition listing : list dir_entry :=
  [ {| entry_path := "data/a"; is_regular_file := true |};
    {| entry_path := "data/sub"; is_regular_file := false |};
    {| entry_path := "data/a.gz"; is_regular_file := true |} ].

End MenuSample.

(** ** Opening the streams *)

Lemma can_open_in_true (fs : FS) (p : string) :
  can_open_in fs p = true <-> is_Some (files fs !! p) /\ p ∉ noread fs.
Proof.
  unfold can_open_in. rewrite andb_true_iff, !bool_decide_eq_true. tauto.
Qed.

Lemma can_open_in_false (fs : FS) (p : string) :
  can_open_in fs p = false <-> files fs !! p = None \/ p ∈ noread fs.
Proof.
  unfold can_open_in. rewrite andb_false_iff, !bool_decide_eq_false.
  rewrite <- eq_None_not_Some. split.
  - intros [H | H]; [by left | right]. by destruct (decide (p ∈ noread fs)).
  - intros [H | H]; [by left | right]. by intros Hn.
Qed.

Lemma can_open_out_true (fs : FS) (p : string) :
  can_open_out fs p = true <-> p ∉ nowrite fs.
Proof. unfold can_open_out. by rewrite bool_decide_eq_true. Qed.

Lemma can_open_out_false (fs : FS) (p : string) :
  can_open_out fs p = false <-> p ∈ nowrite fs.
Proof.
  unfold can_open_out. rewrite bool_decide_eq_false. split.
  - intros H. by destruct (decide (p ∈ nowrite fs)).
  - intros H Hn. by apply Hn.
Qed.

Lemma set_file_twice (fs : FS) (p : string) (a b : bytes) :
  set_file (set_file fs p a) p b = set_file fs p b.
Proof. unfold set_file. simpl. by rewrite insert_insert_eq. Qed.

(** What the source holds once the destination has been truncated. *)
Lemma source_after_truncate (fs : FS) (inp outp : string) (data : bytes) :
  files fs !! inp = Some data ->
  default [] (files (set_file fs outp []) !! inp) = if decide (inp = outp) then [] else data.
Proof.
  intros H. unfold set_file. simpl. case_decide as E.
  - subst. by rewrite lookup_insert_eq.
  - by rewrite lookup_insert_ne, H.
Qed.

Section CodecFacts.
Context (z : zlib).

(** The shape of [processFile] once both streams are open. *)
Lemma processFile_open (fuel : nat) (fs : FS) (inp outp : string)
    (compress : bool) (level : Z) (data : bytes) :
  files fs !! inp = Some data -> inp ∉ noread fs -> outp ∉ nowrite fs ->
  processFile z fuel fs inp outp compress level =
    let inFile := {| unread := if decide (inp = outp) then [] else data;
                     eofbit := false |} in
    let zs := if compress then deflateInit z level else inflateInit z in
    let k := chunk_loop z fuel fuel compress BUFFER_SIZE BUFFER_SIZE inFile zs in
    let fs2 := set_file fs outp (lout k) in
    match lstatus k with
    | LoopError =>
      {| fs_after := fs2;
         printed := [Cerr "Error during compression/decompression"];
         status := StreamError;
         calls := init_call compress level :: lcalls k |}
    | LoopFuel =>
      {| fs_after := fs2; printed := []; status := OutOfFuel;
         calls := init_call compress level :: lcalls k |}
    | LoopDone =>
      {| fs_after := fs2;
         printed := [Cout ("Processed: " +:+ inp +:+ " -> " +:+ outp)];
         status := Processed;
         calls := init_call compress level :: lcalls k ++ [end_call compress] |}
    end.
Proof.
  intros Hin Hr Hw. unfold processFile.
  assert (can_open_in fs inp = true) as ->.
  { apply can_open_in_true. split; [by eexists | done]. }
  assert (can_open_out fs outp = true) as ->.
  { by apply can_open_out_true. }
  cbn [negb]. cbv zeta.
  rewrite (source_after_truncate fs inp outp data Hin), !set_file_twice.
  reflexivity.
Qed.

Lemma read_empty (n : nat) (e : bool) :
  0 < n ->
  ifstream_read {| unread := []; eofbit := e |} n =
    ([], {| unread := []; eofbit := true |}).
Proof.
  intros Hn. unfold ifstream_read. cbn [eofbit unread length].
  destruct e; [done |].
  destruct (Nat.leb_spec n 0) as [H | H]; [lia | done].
Qed.

Lemma read_short (n : nat) (data : bytes) :
  length data < n ->
  ifstream_read {| unread := data; eofbit := false |} n =
    (data, {| unread := []; eofbit := true |}).
Proof.
  intros Hn. unfold ifstream_read. cbn [eofbit unread].
  destruct (Nat.leb_spec n (length data)) as [H | H]; [lia | done].
Qed.

Lemma read_full (n : nat) (data : bytes) :
  n <= length data ->
  ifstream_read {| unread := data; eofbit := false |} n =
    (take n data, {| unread := drop n data; eofbit := false |}).
Proof.
  intros Hn. unfold ifstream_read. cbn [eofbit unread].
  destruct (Nat.leb_spec n (length data)) as [H | H]; [done | lia].
Qed.

Lemma chunk_loop_at_end (fuel dfuel : nat) (compress : bool) (insz outsz : nat)
    (e : bool) (zs : zstate z) :
  0 < insz ->
  chunk_loop z (S fuel) dfuel compress insz outsz {| unread := []; eofbit := e |} zs =
    {| lstatus := LoopDone; lstate := zs; lout := []; lcalls := [] |}.
Proof. intros Hn. cbn [chunk_loop]. by rewrite read_empty. Qed.

(** An iteration of the drain loop that is not a [Z_STREAM_ERROR] and
    stores fewer bytes than the output buffer holds is the last one. *)
Lemma drain_exit (fuel : nat) (compress eof : bool) (outsz : nat)
    (zs : zstate z) (avail : bytes) :
  let r := transform z compress eof zs avail outsz in
  ret r <> Z_STREAM_ERROR ->
  length (out r) < outsz ->
  drain z (S fuel) compress eof outsz zs avail =
    {| lstatus := LoopDone; lstate := state_after r; lout := out r;
       lcalls := [transform_call compress eof avail (ret r)] |}.
Proof.
  intros r Hret Hlen. cbn [drain]. fold r.
  destruct (Z.eqb_spec (ret r) Z_STREAM_ERROR) as [E | _]; [done |].
  destruct (Nat.eqb_spec (outsz - length (out r)) 0) as [E | _]; [lia |].
  rewrite take_ge by lia. reflexivity.
Qed.

(** An iteration that fills the output buffer is followed by another. *)
Lemma drain_repeat (fuel : nat) (compress eof : bool) (outsz : nat)
    (zs : zstate z) (avail : bytes) :
  let r := transform z compress eof zs avail outsz in
  ret r <> Z_STREAM_ERROR ->
  outsz <= length (out r) ->
  drain z (S fuel) compress eof outsz zs avail =
    let d := drain z fuel compress eof outsz (state_after r) (rest_in r) in
    {| lstatus := lstatus d; lstate := lstate d;
       lout := take outsz (out r) ++ lout d;
       lcalls := transform_call compress eof avail (ret r) :: lcalls d |}.
Proof.
  intros r Hret Hlen. cbn [drain]. fold r.
  destruct (Z.eqb_spec (ret r) Z_STREAM_ERROR) as [E | _]; [done |].
  destruct (Nat.eqb_spec (outsz - length (out r)) 0) as [E | E]; [| lia].
  rewrite E, Nat.sub_0_r. reflexivity.
Qed.

(** On [Z_STREAM_ERROR] the loop is left at once and nothing is written. *)
Lemma drain_error (fuel : nat) (compress eof : bool) (outsz : nat)
    (zs : zstate z) (avail : bytes) :
  let r := transform z compress eof zs avail outsz in
  ret r = Z_STREAM_ERROR ->
  drain z (S fuel) compress eof outsz zs avail =
    {| lstatus := LoopError; lstate := state_after r; lout := [];
       lcalls := [transform_call compress eof avail (ret r)] |}.
Proof.
  intros r Hret. cbn [drain]. fold r.
  destruct (Z.eqb_spec (ret r) Z_STREAM_ERROR) as [_ | E]; done.
Qed.

Lemma BUFFER_SIZE_pos : 0 < BUFFER_SIZE.
Proof. unfold BUFFER_SIZE. lia. Qed.

End CodecFacts.

(** ** The codec loop *)

Section CodecClaims.
Context (z : zlib).

(** C9. In the Decompress direction the whole result of [processFile] (the
    store with the destination's bytes, the lines printed, the outcome and
    the calls made to zlib) is the same for any two values of [level]:
    [level] only reaches [deflateInit], which the Decompress direction
    does not call. *)
Theorem decompress_ignores_level (fuel : nat) (fs : FS) (inp outp : string)
    (level1 level2 : Z) :
  processFile z fuel fs inp outp false level1 =
  processFile z fuel fs inp outp false level2.
Proof. reflexivity. Qed.

(** C10. When the source cannot be opened (it does not exist or it is
    barred from reading), [processFile] returns after the one diagnostic
    on [cerr]: the store is the one it was given, so the destination is
    neither created nor truncated nor written, and zlib is not called. *)
Theorem source_failure_leaves_destination (fuel : nat) (fs : FS)
    (inp outp : string) (compress : bool) (level : Z) :
  files fs !! inp = None \/ inp ∈ noread fs ->
  let r := processFile z fuel fs inp outp compress level in
  fs_after r = fs
  /\ files (fs_after r) !! outp = files fs !! outp
  /\ status r = InputOpenError
  /\ printed r = [Cerr ("Error opening input file: " +:+ inp)]
  /\ calls r = [].
Proof.
  intros H r. subst r. unfold processFile.
  apply can_open_in_false in H. rewrite H. cbn [negb]. done.
Qed.

(** C6 (the code at the failing input). Compressing an empty source reads
    no chunk and calls zlib twice, [deflateInit] and [deflateEnd]:
    [deflate] is never called, so never with [Z_FINISH], and the
    destination is left with no byte at all. *)
Theorem compress_empty_source (fuel : nat) (fs : FS) (inp outp : string)
    (level : Z) :
  files fs !! inp = Some [] -> inp ∉ noread fs -> outp ∉ nowrite fs ->
  let r := processFile z (S fuel) fs inp outp true level in
  status r = Processed
  /\ calls r = [CdeflateInit level; CdeflateEnd]
  /\ files (fs_after r) !! outp = Some []
  /\ printed r = [Cout ("Processed: " +:+ inp +:+ " -> " +:+ outp)].
Proof.
  intros Hin Hr Hw r. subst r.
  rewrite (processFile_open z _ fs inp outp true level [] Hin Hr Hw).
  cbv zeta.
  assert ((if decide (inp = outp) then [] else []) = ([] : bytes)) as ->
    by (by case_decide).
  rewrite chunk_loop_at_end by apply BUFFER_SIZE_pos.
  cbn. rewrite lookup_insert_eq. done.
Qed.

(** C5 (the code at the failing input). Let a source of one chunk be
    decompressed, and let [inflate] answer that chunk with an error code
    [e] other than [Z_STREAM_ERROR] ([Z_DATA_ERROR] on a corrupt stream,
    [Z_MEM_ERROR], [Z_NEED_DICT]) without filling the output buffer.  Then
    the run goes on to the next read, ends the stream with [inflateEnd]
    and prints the line that reports the job as processed. *)
Theorem error_code_reported_as_processed (fuel : nat) (fs : FS)
    (inp outp : string) (level : Z) (data : bytes) (e : Z) :
  files fs !! inp = Some data -> inp ∉ noread fs -> outp ∉ nowrite fs ->
  inp <> outp ->
  0 < length data < BUFFER_SIZE ->
  let i := inflate z (inflateInit z) data BUFFER_SIZE Z_NO_FLUSH in
  ret i = e -> e <> Z_STREAM_ERROR -> length (out i) < BUFFER_SIZE ->
  let r := processFile z (S (S fuel)) fs inp outp false level in
  status r = Processed
  /\ printed r = [Cout ("Processed: " +:+ inp +:+ " -> " +:+ outp)]
  /\ calls r = [CinflateInit; Cinflate (length data) Z_NO_FLUSH e; CinflateEnd]
  /\ files (fs_after r) !! outp = Some (out i).
Proof.
  intros Hin Hr Hw Hne Hlen i He Hnse Hout r. subst r.
  rewrite (processFile_open z _ fs inp outp false level data Hin Hr Hw).
  cbv zeta. rewrite decide_False by done.
  cbn [chunk_loop]. rewrite read_short by lia.
  destruct (Nat.eqb_spec (length data) 0) as [E | _]; [lia |].
  cbn [eofbit].
  rewrite drain_exit; cbn [transform]; fold i; [| congruence | done].
  cbn [lstatus lstate lout lcalls].
  rewrite read_empty by apply BUFFER_SIZE_pos.
  cbn. rewrite lookup_insert_eq, app_nil_r, He. done.
Qed.

(** The error code that the loop does test: when the first call of the
    transform answers [Z_STREAM_ERROR], the run stops there.  Nothing is
    written, no further call is made, not even the closing one, and the
    diagnostic is printed in place of the line that reports success. *)
Lemma stream_error_fails_fast (fuel : nat) (fs : FS) (inp outp : string)
    (compress : bool) (level : Z) (data : bytes) :
  files fs !! inp = Some data -> inp ∉ noread fs -> outp ∉ nowrite fs ->
  inp <> outp -> data <> [] ->
  let zs := if compress then deflateInit z level else inflateInit z in
  let chunk := take BUFFER_SIZE data in
  let eof := negb (BUFFER_SIZE <=? length data) in
  let t := transform z compress eof zs chunk BUFFER_SIZE in
  ret t = Z_STREAM_ERROR ->
  let r := processFile z (S fuel) fs inp outp compress level in
  status r = StreamError
  /\ printed r = [Cerr "Error during compression/decompression"]
  /\ calls r = [init_call compress level;
                transform_call compress eof chunk Z_STREAM_ERROR]
  /\ files (fs_after r) !! outp = Some [].
Proof.
  intros Hin Hr Hw Hne Hdata zs chunk eof t Ht r. subst r t eof chunk zs.
  rewrite (processFile_open z _ fs inp outp compress level data Hin Hr Hw).
  cbv zeta. rewrite decide_False by done.
  assert (0 < length data) as Hlen by (destruct data; [done | cbn; lia]).
  pose proof BUFFER_SIZE_pos as Hpos.
  cbn [chunk_loop].
  destruct (Nat.leb_spec BUFFER_SIZE (length data)) as [Hfull | Hshort];
    cbn [negb] in Ht |- *.
  - rewrite read_full by done.
    destruct (Nat.eqb_spec (length (take BUFFER_SIZE data)) 0) as [E | _].
    { rewrite length_take in E. lia. }
    cbn [eofbit]. rewrite drain_error by exact Ht. rewrite Ht.
    cbn. by rewrite lookup_insert_eq.
  - rewrite read_short by done. rewrite take_ge in Ht |- * by lia.
    destruct (Nat.eqb_spec (length data) 0) as [E | _]; [lia |].
    cbn [eofbit]. rewrite drain_error by exact Ht. rewrite Ht.
    cbn. by rewrite lookup_insert_eq.
Qed.

End CodecClaims.

(** ** The finish signal *)

Section Finish.
Context (z : zlib).

Lemma transform_call_without_eof (compress : bool) (avail : bytes) (r : Z) :
  signals_finish (transform_call compress false avail r) = false.
Proof. by destruct compress. Qed.

Lemma drain_first_call (fuel : nat) (compress eof : bool) (outsz : nat)
    (zs : zstate z) (avail : bytes) :
  exists rest,
    lcalls (drain z (S fuel) compress eof outsz zs avail) =
      transform_call compress eof avail
        (ret (transform z compress eof zs avail outsz)) :: rest.
Proof.
  cbn [drain]. repeat case_match; cbn [lcalls]; eauto.
Qed.

Lemma drain_without_eof (fuel : nat) (compress : bool) (outsz : nat)
    (zs : zstate z) (avail : bytes) :
  Forall (fun c => signals_finish c = false)
    (lcalls (drain z fuel compress false outsz zs avail)).
Proof.
  revert zs avail. induction fuel as [| fuel IH]; intros zs avail.
  - constructor.
  - cbn [drain]. repeat case_match; cbn [lcalls].
    + repeat constructor. apply transform_call_without_eof.
    + constructor; [apply transform_call_without_eof | apply IH].
    + repeat constructor. apply transform_call_without_eof.
Qed.

(** A source of [k] full buffers is read in [k] reads that leave [eofbit]
    clear, and the read after them is empty: no chunk is drained with
    [inFile.eof()] true. *)
Lemma chunk_loop_on_multiple (fuel dfuel : nat) (compress : bool)
    (insz outsz k : nat) (data : bytes) (zs : zstate z) :
  0 < insz -> length data = k * insz ->
  Forall (fun c => signals_finish c = false)
    (lcalls (chunk_loop z fuel dfuel compress insz outsz
               {| unread := data; eofbit := false |} zs)).
Proof.
  intros Hn. revert k data zs.
  induction fuel as [| fuel IH]; intros k data zs Hlen; [constructor |].
  cbn [chunk_loop]. destruct k as [| k].
  - apply nil_length_inv in Hlen. subst data.
    rewrite read_empty by done. constructor.
  - rewrite read_full by lia.
    destruct (Nat.eqb_spec (length (take insz data)) 0) as [E | _].
    { rewrite length_take in E. lia. }
    cbn [eofbit].
    pose proof (drain_without_eof dfuel compress outsz zs (take insz data)) as Hd.
    destruct (lstatus (drain z dfuel compress false outsz zs (take insz data)));
      cbn [lcalls]; [| done | done].
    apply Forall_app. split; [done |].
    apply (IH k). rewrite length_drop. lia.
Qed.

(** C4 (the code at the failing input). When the source is a positive
    number of full buffers and is compressed, [deflate] is called on the
    first chunk with [Z_NO_FLUSH], and no call of the whole run carries
    [Z_FINISH], however far the run gets. *)
Theorem buffer_multiple_never_finished (fuel : nat) (fs : FS)
    (inp outp : string) (level : Z) (data : bytes) (k : nat) :
  files fs !! inp = Some data -> inp ∉ noread fs -> outp ∉ nowrite fs ->
  inp <> outp ->
  0 < k -> length data = k * BUFFER_SIZE ->
  let r := processFile z (S fuel) fs inp outp true level in
  Forall (fun c => signals_finish c = false) (calls r)
  /\ exists e rest,
       calls r = CdeflateInit level :: Cdeflate BUFFER_SIZE Z_NO_FLUSH e :: rest.
Proof.
  intros Hin Hr Hw Hne Hk Hlen r. subst r.
  rewrite (processFile_open z _ fs inp outp true level data Hin Hr Hw).
  cbv zeta. rewrite decide_False by done.
  pose proof (chunk_loop_on_multiple (S fuel) (S fuel) true BUFFER_SIZE BUFFER_SIZE
                k data (deflateInit z level) BUFFER_SIZE_pos Hlen) as Hall.
  assert (exists e rest,
    lcalls (chunk_loop z (S fuel) (S fuel) true BUFFER_SIZE BUFFER_SIZE
              {| unread := data; eofbit := false |} (deflateInit z level)) =
    Cdeflate BUFFER_SIZE Z_NO_FLUSH e :: rest) as (e & rest & Hfirst).
  { pose proof BUFFER_SIZE_pos.
    assert (BUFFER_SIZE <= length data) as Hfull by nia.
    cbn [chunk_loop]. rewrite read_full by done.
    assert (length (take BUFFER_SIZE data) = BUFFER_SIZE) as Hc.
    { rewrite length_take. lia. }
    destruct (Nat.eqb_spec (length (take BUFFER_SIZE data)) 0) as [E | _]; [lia |].
    cbn [eofbit].
    destruct (drain_first_call fuel true false BUFFER_SIZE (deflateInit z level)
                (take BUFFER_SIZE data)) as [rest Hd].
    cbn [transform_call] in Hd. rewrite Hc in Hd.
    destruct (lstatus (drain z (S fuel) true false BUFFER_SIZE _ _));
      cbn [lcalls]; rewrite Hd; eauto. }
  destruct (lstatus (chunk_loop z (S fuel) (S fuel) true BUFFER_SIZE BUFFER_SIZE _ _));
    cbn [calls init_call end_call]; rewrite Hfirst in *; (split; [| eauto]).
  - constructor; [done |]. apply Forall_app. split; [done |]. by repeat constructor.
  - by constructor.
  - by constructor.
Qed.

(** Off the buffer boundary the loop does what it is meant to: the last
    read is short and sets [eofbit], and the chunk it brings is drained with
    [Z_FINISH]. *)
Lemma chunk_loop_off_boundary (fuel dfuel : nat) (insz outsz : nat)
    (data : bytes) (zs : zstate z) :
  0 < insz -> (forall k, length data <> k * insz) ->
  lstatus (chunk_loop z fuel dfuel true insz outsz
             {| unread := data; eofbit := false |} zs) = LoopDone ->
  Exists (fun c => signals_finish c = true)
    (lcalls (chunk_loop z fuel dfuel true insz outsz
               {| unread := data; eofbit := false |} zs)).
Proof.
  intros Hn. revert data zs.
  induction fuel as [| fuel IH]; intros data zs Hoff Hdone; [done |].
  assert (0 < length data) as Hne by (specialize (Hoff 0); lia).
  cbn [chunk_loop] in *.
  destruct (Nat.le_gt_cases insz (length data)) as [Hfull | Hshort].
  - rewrite read_full in * by done.
    destruct (Nat.eqb_spec (length (take insz data)) 0) as [E | _].
    { rewrite length_take in E. lia. }
    cbn [eofbit] in *.
    destruct (lstatus (drain z dfuel true false outsz zs (take insz data)))
      eqn:Hs; [| congruence | congruence].
    cbn [lstatus lcalls] in *. apply Exists_app. right.
    apply IH; [| done].
    intros k Hk. rewrite length_drop in Hk. apply (Hoff (S k)). lia.
  - rewrite read_short in * by done.
    destruct (Nat.eqb_spec (length data) 0) as [E | _]; [lia |].
    cbn [eofbit] in *.
    destruct dfuel as [| dfuel].
    { cbn in Hdone. done. }
    destruct (drain_first_call dfuel true true outsz zs data) as [rest Hd].
    destruct (lstatus (drain z (S dfuel) true true outsz zs data));
      cbn [lcalls]; rewrite Hd; try apply Exists_app; repeat constructor.
Qed.

End Finish.

(** ** Fuel *)

Section Fuel.
Context (z : zlib).

Lemma drain_fuel_mono (fuel fuel' : nat) (compress eof : bool) (outsz : nat)
    (zs : zstate z) (avail : bytes) :
  lstatus (drain z fuel compress eof outsz zs avail) <> LoopFuel ->
  fuel <= fuel' ->
  drain z fuel' compress eof outsz zs avail = drain z fuel compress eof outsz zs avail.
Proof.
  revert fuel' zs avail. induction fuel as [| fuel IH]; intros fuel' zs avail Hs Hle.
  - by cbn in Hs.
  - destruct fuel' as [| fuel']; [lia |].
    cbn [drain] in *. repeat case_match; try done.
    cbn [lstatus] in Hs. by rewrite (IH fuel') by (done || lia).
Qed.

Lemma drain_terminates (owed : zstate z -> bytes -> nat) (outsz fuel : nat)
    (compress eof : bool) (zs : zstate z) (avail : bytes) :
  bounded_output z outsz owed ->
  owed zs avail < fuel ->
  lstatus (drain z fuel compress eof outsz zs avail) <> LoopFuel.
Proof.
  intros Hb. revert zs avail. induction fuel as [| fuel IH]; intros zs avail Hlt; [lia |].
  cbn [drain].
  destruct (Z.eqb_spec (ret (transform z compress eof zs avail outsz)) Z_STREAM_ERROR)
    as [E | E]; [done |].
  destruct (Nat.eqb_spec (outsz - length (out (transform z compress eof zs avail outsz))) 0)
    as [E0 | E0]; [| done].
  cbn [lstatus]. apply IH.
  pose proof (Hb compress eof zs avail E) as Hd. cbv zeta in Hd. lia.
Qed.

Lemma chunk_loop_terminates (owed : zstate z -> bytes -> nat) (insz outsz : nat)
    (compress : bool) (inFile : ifstream) (zs : zstate z) :
  0 < insz ->
  bounded_output z outsz owed ->
  exists F k,
    lstatus k <> LoopFuel /\
    forall fuel dfuel, F <= fuel -> F <= dfuel ->
      chunk_loop z fuel dfuel compress insz outsz inFile zs = k.
Proof.
  intros Hn Hb.
  remember (reads_left inFile) as n eqn:Hm.
  assert (reads_left inFile <= n) as Hle by lia. clear Hm.
  revert inFile zs Hle. induction n as [| n IH]; intros inFile zs Hle.
  - exists 1. eexists. split; [| intros [| fuel] dfuel Hf Hd; [lia |]].
    2:{ cbn [chunk_loop]. destruct inFile as [u [|]]; [| cbn in Hle; lia].
        unfold ifstream_read. cbn. reflexivity. }
    done.
  - destruct inFile as [u e].
    destruct e.
    { exists 1. eexists. split; [| intros [| fuel] dfuel Hf Hd; [lia |]].
      2:{ cbn [chunk_loop]. unfold ifstream_read. cbn. reflexivity. }
      done. }
    unfold reads_left in Hle. cbn [eofbit unread] in Hle.
    destruct (ifstream_read {| unread := u; eofbit := false |} insz)
      as [chunk inFile'] eqn:Hread.
    assert (reads_left inFile' <= n) as Hleft.
    { destruct (Nat.le_gt_cases insz (length u)) as [H | H].
      - rewrite read_full in Hread by done. injection Hread as <- <-.
        unfold reads_left. cbn. rewrite length_drop. lia.
      - rewrite read_short in Hread by done. injection Hread as <- <-.
        unfold reads_left. cbn. lia. }
    destruct (length chunk =? 0) eqn:Hc.
    { exists 1. eexists. split; [| intros [| fuel] dfuel Hf Hd; [lia |]].
      2:{ cbn [chunk_loop]. rewrite Hread, Hc. reflexivity. }
      done. }
    set (F1 := S (owed zs chunk)).
    pose proof (drain_terminates owed outsz F1 compress (eofbit inFile') zs chunk Hb
                  ltac:(unfold F1; lia)) as Hd1.
    destruct (lstatus (drain z F1 compress (eofbit inFile') outsz zs chunk)) eqn:Hs.
    + destruct (IH inFile' (lstate (drain z F1 compress (eofbit inFile') outsz zs chunk))
                  Hleft) as (F2 & k & Hk & Hstable).
      exists (Nat.max F1 (S F2)). eexists. split;
        [| intros [| fuel] dfuel Hf Hd; [lia |]].
      2:{ cbn [chunk_loop]. rewrite Hread, Hc.
          rewrite (drain_fuel_mono F1 dfuel) by (rewrite ?Hs; done || lia).
          rewrite Hs. rewrite (Hstable fuel dfuel) by lia. reflexivity. }
      done.
    + exists F1. eexists. split; [| intros [| fuel] dfuel Hf Hd; [unfold F1 in *; lia |]].
      2:{ cbn [chunk_loop]. rewrite Hread, Hc.
          rewrite (drain_fuel_mono F1 dfuel) by (rewrite ?Hs; done || lia).
          rewrite Hs. reflexivity. }
      by rewrite Hs.
    + done.
Qed.

End Fuel.

(** ** Termination of the loops *)

(** C8. One iteration of the drain loop that is no [Z_STREAM_ERROR] and
    stores fewer bytes than the output buffer holds, none included, ends the
    loop with that call; the loop makes a second call only after a first one
    that filled the buffer.  Given that the transform cannot fill the buffer
    for ever from a finite input ([bounded_output]), every run of
    [processFile] ends: there is a step budget from which on the run never
    exhausts it and its result no longer depends on it. *)
Theorem drain_loop_terminates (z : zlib) (owed : zstate z -> bytes -> nat)
    (fs : FS) (inp outp : string) (compress : bool) (level : Z) :
  bounded_output z BUFFER_SIZE owed ->
  (forall fuel eof zs avail,
     let r := transform z compress eof zs avail BUFFER_SIZE in
     ret r <> Z_STREAM_ERROR -> length (out r) < BUFFER_SIZE ->
     drain z (S fuel) compress eof BUFFER_SIZE zs avail =
       {| lstatus := LoopDone; lstate := state_after r; lout := out r;
          lcalls := [transform_call compress eof avail (ret r)] |})
  /\ (forall fuel eof zs avail,
        1 < length (lcalls (drain z fuel compress eof BUFFER_SIZE zs avail)) ->
        BUFFER_SIZE <= length (out (transform z compress eof zs avail BUFFER_SIZE)))
  /\ exists F, forall fuel, F <= fuel ->
       status (processFile z fuel fs inp outp compress level) <> OutOfFuel
       /\ processFile z fuel fs inp outp compress level =
          processFile z F fs inp outp compress level.
Proof.
  intros Hb. split; [| split].
  - intros fuel eof zs avail r Hret Hlen. by apply drain_exit.
  - intros [| fuel] eof zs avail; cbn [drain]; [cbn [lcalls length]; lia |].
    repeat case_match; cbn [lcalls length]; try lia.
    match goal with H : (_ =? 0) = true |- _ => apply Nat.eqb_eq in H end. lia.
  - unfold processFile.
    destruct (can_open_in fs inp); cbn [negb]; [| by exists 0].
    destruct (can_open_out fs outp); cbn [negb]; [| by exists 0].
    cbv zeta.
    destruct (chunk_loop_terminates z owed BUFFER_SIZE BUFFER_SIZE compress
                {| unread := default [] (files (set_file fs outp []) !! inp);
                   eofbit := false |}
                (if compress then deflateInit z level else inflateInit z)
                BUFFER_SIZE_pos Hb) as (F & k & Hk & Hstable).
    exists F. intros fuel Hle.
    rewrite (Hstable fuel fuel), (Hstable F F) by lia.
    split; [| done]. by destruct (lstatus k).
Qed.

(** ** The reference transform *)

Lemma ref_bounded_output (outsz : nat) :
  0 < outsz -> bounded_output Ref.api outsz Ref.owed.
Proof.
  intros Hpos compress eof zs avail r Hret Hlen. subst r.
  destruct compress; cbn [transform deflate inflate Ref.api] in *.
  - unfold Ref.deflate in *. destruct zs as [fin held pending | i |]; [| done | done].
    clear Hret.
    destruct fin, eof; cbn in Hlen |- *;
      rewrite length_take in Hlen; rewrite length_drop;
      rewrite ?length_app in *; cbn [length] in *; rewrite ?length_app in *; lia.
  - unfold Ref.inflate, Ref.inflate_body in *.
    clear Hret.
    destruct zs as [fin held pending | [| |] |];
      try (cbn [out length] in Hlen; lia).
    + destruct avail as [| h t]; [cbn in Hlen; lia |].
      destruct (Byte.eqb h Ref.magic);
        cbn [out rest_in state_after length Ref.owed] in *; [| lia].
      rewrite length_take in Hlen. rewrite length_drop. lia.
    + cbn [out rest_in state_after Ref.owed] in *.
      rewrite length_take in Hlen. rewrite length_drop. lia.
Qed.

Lemma ref_deflate_hold (held chunk : bytes) (outsz : nat) :
  Ref.deflate (Ref.Deflating false held []) chunk outsz Z_NO_FLUSH =
    {| ret := Z_OK; state_after := Ref.Deflating false (held ++ chunk) [];
       rest_in := []; out := [] |}.
Proof. unfold Ref.deflate. cbn. by rewrite take_nil, drop_nil. Qed.

(** With [Z_NO_FLUSH] only, the reference [deflate] takes every chunk in and
    puts nothing out. *)
Lemma ref_compress_multiple (k fuel dfuel insz outsz : nat) (data held : bytes) :
  0 < insz -> 0 < outsz -> length data = k * insz -> k < fuel -> 0 < dfuel ->
  chunk_loop Ref.api fuel dfuel true insz outsz
    {| unread := data; eofbit := false |} (Ref.Deflating false held []) =
  {| lstatus := LoopDone; lstate := Ref.Deflating false (held ++ data) [];
     lout := []; lcalls := replicate k (Cdeflate insz Z_NO_FLUSH Z_OK) |}.
Proof.
  intros Hin Hout. revert fuel data held.
  induction k as [| k IH]; intros fuel data held Hlen Hf Hd.
  - apply nil_length_inv in Hlen. subst data.
    destruct fuel as [| fuel]; [lia |].
    rewrite chunk_loop_at_end by done. by rewrite app_nil_r.
  - destruct fuel as [| fuel]; [lia |].
    destruct dfuel as [| dfuel]; [lia |].
    cbn [chunk_loop]. rewrite read_full by lia.
    assert (length (take insz data) = insz) as Hc by (rewrite length_take; lia).
    destruct (Nat.eqb_spec (length (take insz data)) 0) as [E | _]; [lia |].
    cbn [eofbit].
    rewrite drain_exit;
      cbn [transform deflate Ref.api]; rewrite ref_deflate_hold; cbn [ret out];
      [| done | done].
    cbn [lstatus lstate lout lcalls state_after transform_call].
    rewrite (IH fuel) by (rewrite ?length_drop; lia).
    cbn [lstatus lstate lout lcalls replicate].
    by rewrite Hc, <- app_assoc, take_drop.
Qed.

Lemma ref_deflateInit_valid (level : Z) :
  (-1 <= level <= 9)%Z -> Ref.deflateInit level = Ref.Deflating false [] [].
Proof.
  intros H. unfold Ref.deflateInit.
  destruct (Z.leb_spec (-1) level), (Z.leb_spec level 9); try lia. done.
Qed.

(** C1 (the code at the failing input, on the reference transform). A source
    of a positive number of full buffers is compressed without [deflate]
    ever being told to finish, so what the transform held back is lost with
    [deflateEnd]: the compressed file is empty, and decompressing it yields
    the empty file, not the source. *)
Theorem roundtrip_lost_on_buffer_multiple (fuel : nat) (fs : FS)
    (src gz dst : string) (level : Z) (data : bytes) (k : nat) :
  files fs !! src = Some data ->
  src ∉ noread fs -> gz ∉ noread fs -> gz ∉ nowrite fs -> dst ∉ nowrite fs ->
  src <> gz ->
  (-1 <= level <= 9)%Z ->
  0 < k -> length data = k * BUFFER_SIZE -> k < fuel ->
  let c := processFile Ref.api fuel fs src gz true level in
  let d := processFile Ref.api fuel (fs_after c) gz dst false level in
  status c = Processed
  /\ status d = Processed
  /\ files (fs_after c) !! gz = Some []
  /\ files (fs_after d) !! dst = Some []
  /\ data <> [].
Proof.
  intros Hin Hrs Hrg Hwg Hwd Hne Hlvl Hk Hlen Hf c d.
  assert (c = {| fs_after := set_file fs gz [];
                 printed := [Cout ("Processed: " +:+ src +:+ " -> " +:+ gz)];
                 status := Processed;
                 calls := CdeflateInit level ::
                          replicate k (Cdeflate BUFFER_SIZE Z_NO_FLUSH Z_OK)
                          ++ [CdeflateEnd] |}) as Hc.
  { subst c d.
    rewrite (processFile_open Ref.api _ fs src gz true level data Hin Hrs Hwg).
    cbv zeta. rewrite decide_False by done.
    cbn [deflateInit Ref.api]. rewrite ref_deflateInit_valid by done.
    rewrite (ref_compress_multiple k) by (done || lia || apply BUFFER_SIZE_pos).
    reflexivity. }
  subst d. rewrite Hc. cbn [fs_after status].
  assert (files (set_file fs gz []) !! gz = Some []) as Hgz.
  { unfold set_file. cbn [files]. apply lookup_insert_eq. }
  rewrite (processFile_open Ref.api _ (set_file fs gz []) gz dst false level []
             Hgz Hrg Hwd).
  cbv zeta.
  assert ((if decide (gz = dst) then [] else []) = ([] : bytes)) as ->
    by (by case_decide).
  destruct fuel as [| fuel]; [lia |].
  rewrite chunk_loop_at_end by apply BUFFER_SIZE_pos.
  cbn [lstatus lout fs_after status].
  repeat split; try done.
  - unfold set_file. cbn [files]. apply lookup_insert_eq.
  - intros ->. pose proof BUFFER_SIZE_pos. cbn [length] in Hlen. nia.
Qed.

(** *** The reference transform off the buffer boundary *)

(** The reference [deflate], once told to finish, hands out what is pending
    one output buffer at a time. *)
Lemma ref_drain_pending (dfuel outsz : nat) (eof : bool) (pending : bytes) :
  0 < outsz -> length pending < dfuel ->
  let d := drain Ref.api dfuel true eof outsz (Ref.Deflating true [] pending) [] in
  lstatus d = LoopDone /\ lout d = pending /\ lstate d = Ref.Deflating true [] [].
Proof.
  intros Hout. revert pending.
  induction dfuel as [| dfuel IH]; intros pending Hf; [lia |].
  assert (transform Ref.api true eof (Ref.Deflating true [] pending) [] outsz =
          {| ret := if bool_decide (length (drop outsz pending) = 0)
                    then Z_STREAM_END else Z_OK;
             state_after := Ref.Deflating true [] (drop outsz pending);
             rest_in := []; out := take outsz pending |}) as Hcall.
  { cbn [transform deflate Ref.api]. unfold Ref.deflate.
    by rewrite andb_false_r. }
  assert (ret (transform Ref.api true eof (Ref.Deflating true [] pending) [] outsz)
          <> Z_STREAM_ERROR) as Hret.
  { rewrite Hcall. cbn [ret]. by case_bool_decide. }
  destruct (Nat.lt_ge_cases (length pending) outsz) as [Hlt | Hge].
  - rewrite drain_exit;
      [| exact Hret | rewrite Hcall; cbn [out]; rewrite length_take; lia].
    rewrite Hcall. cbn [out ret state_after lstatus lout lstate].
    by rewrite take_ge, drop_ge by lia.
  - rewrite drain_repeat;
      [| exact Hret | rewrite Hcall; cbn [out]; rewrite length_take; lia].
    rewrite Hcall. cbv zeta. cbn [out ret state_after rest_in lstatus lout lstate].
    destruct (IH (drop outsz pending)) as (H1 & H2 & H3);
      [rewrite length_drop; lia |].
    cbv zeta in H1, H2, H3. rewrite H1, H2, H3.
    by rewrite take_take, Nat.min_id, take_drop.
Qed.

(** The last chunk, drained with [Z_FINISH]: the header and everything held
    come out. *)
Lemma ref_drain_finish (dfuel outsz : nat) (held chunk : bytes) :
  0 < outsz -> length held + length chunk + 1 < dfuel ->
  let d := drain Ref.api dfuel true true outsz (Ref.Deflating false held []) chunk in
  lstatus d = LoopDone /\ lout d = Ref.magic :: held ++ chunk
  /\ lstate d = Ref.Deflating true [] [].
Proof.
  intros Hout Hf. destruct dfuel as [| dfuel]; [lia |].
  set (pending := Ref.magic :: held ++ chunk).
  assert (transform Ref.api true true (Ref.Deflating false held []) chunk outsz =
          {| ret := if bool_decide (length (drop outsz pending) = 0)
                    then Z_STREAM_END else Z_OK;
             state_after := Ref.Deflating true [] (drop outsz pending);
             rest_in := []; out := take outsz pending |}) as Hcall.
  { reflexivity. }
  assert (ret (transform Ref.api true true (Ref.Deflating false held []) chunk outsz)
          <> Z_STREAM_ERROR) as Hret.
  { rewrite Hcall. cbn [ret]. by case_bool_decide. }
  assert (length pending = S (length held + length chunk)) as Hlen.
  { unfold pending. cbn [length]. by rewrite length_app. }
  destruct (Nat.lt_ge_cases (length pending) outsz) as [Hlt | Hge].
  - rewrite drain_exit;
      [| exact Hret | rewrite Hcall; cbn [out]; rewrite length_take; lia].
    rewrite Hcall. cbn [out ret state_after lstatus lout lstate].
    by rewrite take_ge, drop_ge by lia.
  - rewrite drain_repeat;
      [| exact Hret | rewrite Hcall; cbn [out]; rewrite length_take; lia].
    rewrite Hcall. cbv zeta. cbn [out ret state_after rest_in lstatus lout lstate].
    destruct (ref_drain_pending dfuel outsz true (drop outsz pending) Hout)
      as (H1 & H2 & H3); [rewrite length_drop; lia |].
    cbv zeta in H1, H2, H3. rewrite H1, H2, H3.
    by rewrite take_take, Nat.min_id, take_drop.
Qed.

(** Compressing a source that does not end on a buffer boundary: the full
    buffers are held, the last chunk is drained with [Z_FINISH]. *)
Lemma ref_compress_off_boundary (fuel dfuel insz outsz : nat) (data held : bytes) :
  0 < insz -> 0 < outsz ->
  (forall k, length data <> k * insz) ->
  length data < fuel -> length held + length data + 1 < dfuel ->
  let r := chunk_loop Ref.api fuel dfuel true insz outsz
             {| unread := data; eofbit := false |} (Ref.Deflating false held []) in
  lstatus r = LoopDone /\ lout r = Ref.magic :: held ++ data.
Proof.
  intros Hin Hout. revert data held.
  induction fuel as [| fuel IH]; intros data held Hoff Hf Hd; [lia |].
  assert (0 < length data) as Hne.
  { specialize (Hoff 0). lia. }
  cbn [chunk_loop]. cbv zeta.
  destruct (Nat.le_gt_cases insz (length data)) as [Hfull | Hshort].
  - rewrite read_full by done.
    assert (length (take insz data) = insz) as Hc by (rewrite length_take; lia).
    destruct (Nat.eqb_spec (length (take insz data)) 0) as [E | _]; [lia |].
    cbn [eofbit]. destruct dfuel as [| dfuel]; [lia |].
    rewrite drain_exit;
      cbn [transform deflate Ref.api]; rewrite ref_deflate_hold; cbn [ret out];
      [| done | done].
    cbn [lstatus lstate lout lcalls state_after].
    destruct (IH (drop insz data) (held ++ take insz data)) as [H1 H2].
    + intros k Hk. rewrite length_drop in Hk. apply (Hoff (S k)). lia.
    + rewrite length_drop. lia.
    + rewrite length_app, length_drop, Hc. lia.
    + cbv zeta in H1, H2. rewrite H1, H2.
      by rewrite <- app_assoc, take_drop.
  - rewrite read_short by done.
    destruct (Nat.eqb_spec (length data) 0) as [E | _]; [lia |].
    cbn [eofbit].
    destruct (ref_drain_finish dfuel outsz held data Hout Hd) as (H1 & H2 & H3).
    cbv zeta in H1, H2, H3. rewrite H1, H2, H3.
    destruct fuel as [| fuel]; [lia |].
    rewrite chunk_loop_at_end by done. cbn [lstatus lout].
    by rewrite app_nil_r.
Qed.

(** One chunk of the body of a stream, decompressed: it comes out as it is,
    with one more call when it fills the output buffer. *)
Lemma ref_drain_body (dfuel outsz : nat) (eof : bool) (chunk : bytes) :
  0 < outsz -> length chunk <= outsz -> 2 <= dfuel ->
  let d := drain Ref.api dfuel false eof outsz (Ref.Inflating Ref.IBody) chunk in
  lstatus d = LoopDone /\ lout d = chunk /\ lstate d = Ref.Inflating Ref.IBody.
Proof.
  intros Hout Hlen Hf.
  destruct dfuel as [| [| dfuel]]; [lia | lia |].
  destruct (Nat.lt_ge_cases (length chunk) outsz) as [Hlt | Hge].
  - rewrite drain_exit; cbn [transform inflate Ref.api Ref.inflate Ref.inflate_body
                            ret out state_after];
      [| done | rewrite length_take; lia].
    cbn [lstatus lout lstate]. by rewrite take_ge by lia.
  - rewrite drain_repeat; cbn [transform inflate Ref.api Ref.inflate Ref.inflate_body
                              ret out state_after rest_in];
      [| done | rewrite length_take; lia].
    cbv zeta. rewrite (drop_ge chunk outsz) by lia.
    rewrite drain_exit; cbn [transform inflate Ref.api Ref.inflate Ref.inflate_body
                            ret out state_after];
      [| done | rewrite take_nil; cbn; lia].
    cbn [lstatus lout lstate].
    by rewrite take_take, Nat.min_id, take_nil, app_nil_r, take_ge by lia.
Qed.

Lemma ref_decompress_body (fuel dfuel insz outsz : nat) (rest : bytes) :
  0 < insz -> insz <= outsz -> 2 <= dfuel -> length rest < fuel ->
  let r := chunk_loop Ref.api fuel dfuel false insz outsz
             {| unread := rest; eofbit := false |} (Ref.Inflating Ref.IBody) in
  lstatus r = LoopDone /\ lout r = rest.
Proof.
  intros Hin Hio Hd. revert rest.
  induction fuel as [| fuel IH]; intros rest Hf; [lia |].
  destruct (decide (rest = [])) as [-> | Hne].
  { by rewrite chunk_loop_at_end. }
  assert (0 < length rest) as Hpos by (destruct rest; [done | cbn; lia]).
  cbn [chunk_loop]. cbv zeta.
  destruct (Nat.le_gt_cases insz (length rest)) as [Hfull | Hshort].
  - rewrite read_full by done.
    assert (length (take insz rest) = insz) as Hc by (rewrite length_take; lia).
    destruct (Nat.eqb_spec (length (take insz rest)) 0) as [E | _]; [lia |].
    cbn [eofbit].
    destruct (ref_drain_body dfuel outsz false (take insz rest)) as (H1 & H2 & H3);
      [lia | lia | done |].
    cbv zeta in H1, H2, H3. rewrite H1, H2, H3.
    destruct (IH (drop insz rest)) as [H4 H5]; [rewrite length_drop; lia |].
    cbv zeta in H4, H5. cbn [lstatus lout]. rewrite H4, H5.
    by rewrite take_drop.
  - rewrite read_short by done.
    destruct (Nat.eqb_spec (length rest) 0) as [E | _]; [lia |].
    cbn [eofbit].
    destruct (ref_drain_body dfuel outsz true rest) as (H1 & H2 & H3);
      [lia | lia | done |].
    cbv zeta in H1, H2, H3. rewrite H1, H2, H3.
    destruct fuel as [| fuel]; [lia |].
    rewrite chunk_loop_at_end by done. cbn [lstatus lout].
    by rewrite app_nil_r.
Qed.

(** Decompressing a stream of the reference format gives the bytes after
    the header. *)
Lemma ref_decompress (fuel dfuel insz outsz : nat) (data : bytes) :
  0 < insz -> insz <= outsz -> 2 <= dfuel -> length data + 1 < fuel ->
  let r := chunk_loop Ref.api fuel dfuel false insz outsz
             {| unread := Ref.magic :: data; eofbit := false |}
             (Ref.Inflating Ref.IHeader) in
  lstatus r = LoopDone /\ lout r = data.
Proof.
  intros Hin Hio Hd Hf.
  destruct fuel as [| fuel]; [lia |].
  destruct dfuel as [| dfuel]; [lia |].
  cbn [chunk_loop]. cbv zeta.
  destruct (Nat.le_gt_cases insz (length (Ref.magic :: data))) as [Hfull | Hshort].
  - rewrite read_full by done.
    destruct insz as [| n]; [lia |]. cbn [take drop].
    cbn [length] in Hfull.
    assert (length (take n data) = n) as Hc by (rewrite length_take; lia).
    cbn [length]. cbn [Nat.eqb eofbit].
    rewrite drain_exit; cbn [transform inflate Ref.api Ref.inflate];
      change (Byte.eqb Ref.magic Ref.magic) with true;
      cbn [Ref.inflate_body ret out state_after];
      [| done | rewrite length_take; lia].
    cbn [lstatus lout lstate].
    destruct (ref_decompress_body fuel (S dfuel) (S n) outsz (drop n data))
      as [H1 H2]; [lia | lia | lia | rewrite length_drop; lia |].
    cbv zeta in H1, H2. rewrite H1, H2.
    rewrite (take_ge (take n data)) by lia.
    by rewrite take_drop.
  - rewrite read_short by done. cbn [length Nat.eqb eofbit].
    cbn [length] in Hshort.
    rewrite drain_exit; cbn [transform inflate Ref.api Ref.inflate];
      change (Byte.eqb Ref.magic Ref.magic) with true;
      cbn [Ref.inflate_body ret out state_after];
      [| done | rewrite length_take; lia].
    cbn [lstatus lout lstate].
    destruct fuel as [| fuel]; [lia |].
    rewrite chunk_loop_at_end by done. cbn [lstatus lout].
    by rewrite take_ge, app_nil_r by lia.
Qed.

(** On the reference transform the round trip through [processFile] gives
    the source back whenever the source does not end on a buffer boundary:
    what fails on the boundary is the loop's finish signal, not the
    transform. *)
Lemma ref_roundtrip_off_boundary (fuel : nat) (fs : FS) (src gz dst : string)
    (level level' : Z) (data : bytes) :
  files fs !! src = Some data ->
  src ∉ noread fs -> gz ∉ noread fs -> gz ∉ nowrite fs -> dst ∉ nowrite fs ->
  src <> gz -> gz <> dst ->
  (-1 <= level <= 9)%Z ->
  (forall k, length data <> k * BUFFER_SIZE) ->
  length data + 2 < fuel ->
  let c := processFile Ref.api fuel fs src gz true level in
  let d := processFile Ref.api fuel (fs_after c) gz dst false level' in
  status c = Processed
  /\ status d = Processed
  /\ files (fs_after c) !! gz = Some (Ref.magic :: data)
  /\ files (fs_after d) !! dst = Some data.
Proof.
  intros Hin Hrs Hrg Hwg Hwd Hne Hne' Hlvl Hoff Hf c d.
  pose proof BUFFER_SIZE_pos as Hpos.
  assert (status c = Processed /\ fs_after c = set_file fs gz (Ref.magic :: data))
    as [Hc1 Hc2].
  { subst c d.
    rewrite (processFile_open Ref.api _ fs src gz true level data Hin Hrs Hwg).
    cbv zeta. rewrite decide_False by done.
    cbn [deflateInit Ref.api]. rewrite ref_deflateInit_valid by done.
    destruct (ref_compress_off_boundary fuel fuel BUFFER_SIZE BUFFER_SIZE data [])
      as [H1 H2]; [done | done | done | lia | cbn [length]; lia |].
    cbv zeta in H1, H2. rewrite H1, H2. done. }
  assert (files (fs_after c) !! gz = Some (Ref.magic :: data)) as Hgz.
  { rewrite Hc2. unfold set_file. cbn [files]. apply lookup_insert_eq. }
  split; [done |].
  subst d.
  rewrite (processFile_open Ref.api _ (fs_after c) gz dst false level'
             (Ref.magic :: data) Hgz);
    [| by rewrite Hc2 | by rewrite Hc2].
  cbv zeta. rewrite decide_False by done.
  cbn [inflateInit Ref.api]. unfold Ref.inflateInit.
  destruct (ref_decompress fuel fuel BUFFER_SIZE BUFFER_SIZE data)
    as [H1 H2]; [done | done | lia | lia |].
  cbv zeta in H1, H2. rewrite H1, H2. cbn [status fs_after].
  split; [done |]. split; [done |].
  unfold set_file. cbn [files]. apply lookup_insert_eq.
Qed.

(** ** The worker pool *)

Section PoolFacts.
Context (z : zlib) (fuel : nat) (tasks : list CompressionTask).

Lemma run_schedule_app (s1 s2 : list nat) (p : Pool) :
  run_schedule z fuel tasks (s1 ++ s2) p =
  run_schedule z fuel tasks s2 (run_schedule z fuel tasks s1 p).
Proof. unfold run_schedule. apply foldl_app. Qed.

(** What a step does to the cursor: nothing, or, in the critical section
    of a thread that finds an index left, one increment. *)
Lemma worker_step_cursor (i : nat) (p : Pool) :
  let q := worker_step z fuel tasks i p in
  (currentTask q = currentTask p /\ claimed q = claimed p)
  \/ (threads p !! i = Some Claiming
      /\ currentTask p < length tasks
      /\ currentTask q = S (currentTask p)
      /\ claimed q = claimed p ++ [(i, currentTask p)]
      /\ threads q !! i = Some (Running (currentTask p))).
Proof.
  unfold worker_step.
  destruct (threads p !! i) as [[| k |] |] eqn:Hi; cbn zeta; auto.
  - destruct (Nat.leb_spec (length tasks) (currentTask p)) as [H | H]; cbn; auto.
    right. repeat split; try done.
    apply list_lookup_insert_eq. by eapply lookup_lt_Some.
  - destruct (tasks !! k); cbn; auto.
Qed.

Lemma worker_step_cursor_le (i : nat) (p : Pool) :
  currentTask p <= currentTask (worker_step z fuel tasks i p).
Proof.
  destruct (worker_step_cursor i p) as [[H _] | (_ & _ & H & _)]; lia.
Qed.

Lemma run_schedule_cursor_le (sched : list nat) (p : Pool) :
  currentTask p <= currentTask (run_schedule z fuel tasks sched p).
Proof.
  revert p. induction sched as [| i sched IH]; intros p; [done |].
  cbn. etrans; [apply (worker_step_cursor_le i) | apply IH].
Qed.

Lemma worker_step_threads_length (i : nat) (p : Pool) :
  length (threads (worker_step z fuel tasks i p)) = length (threads p).
Proof.
  unfold worker_step.
  destruct (threads p !! i) as [[| k |] |]; cbn zeta; try done.
  - destruct (length tasks <=? currentTask p); cbn; apply length_insert.
  - destruct (tasks !! k); cbn; [apply length_insert | done].
Qed.

Lemma run_schedule_threads_length (sched : list nat) (p : Pool) :
  length (threads (run_schedule z fuel tasks sched p)) = length (threads p).
Proof.
  unfold run_schedule.
  revert p. induction sched as [| i sched IH]; intros p; [done |].
  cbn. by rewrite IH, worker_step_threads_length.
Qed.

(** With no thread there is no step. *)
Lemma run_schedule_no_threads (sched : list nat) (p : Pool) :
  threads p = [] -> run_schedule z fuel tasks sched p = p.
Proof.
  intros Hp. unfold run_schedule. induction sched as [| i sched IH]; [done |].
  cbn. unfold worker_step at 2. by rewrite Hp.
Qed.

End PoolFacts.

(** C7 (as amended). A worker count of zero or less is not detected:
    [processFiles] starts no thread, so whatever the tasks it returns at
    once with the cursor at 0, no index claimed, no task run, the store as
    it was and nothing printed. *)
Theorem nonpositive_worker_count_runs_nothing (z : zlib) (fuel : nat)
    (tasks : list CompressionTask) (numThreads : Z) (sched : list nat) (fs : FS) :
  (numThreads <= 0)%Z ->
  let p := processFiles z fuel tasks numThreads sched fs in
  joined p = true
  /\ threads p = []
  /\ currentTask p = 0
  /\ claimed p = [] /\ executed p = []
  /\ store p = fs
  /\ console p = [].
Proof.
  intros H p. subst p. unfold processFiles.
  assert (Z.to_nat numThreads = 0) as Hn by lia.
  rewrite run_schedule_no_threads; unfold spawn; rewrite Hn; done.
Qed.

(** * The pool replays its tasks *)

Lemma omap_lookup_snd {A} (l : list A) (es : list (nat * nat)) :
  omap (fun e => l !! e.2) es = omap (fun k => l !! k) es.*2.
Proof.
  induction es as [| e es IH]; [done |]. cbn. by rewrite IH.
Qed.

Lemma omap_lookup_seq {A} (l : list A) (n : nat) :
  n <= length l -> omap (fun k => l !! k) (seq 0 n) = take n l.
Proof.
  induction n as [| n IH]; intros Hn; [done |].
  destruct (lookup_lt_is_Some_2 l n ltac:(lia)) as [x Hx].
  rewrite seq_S, omap_app, IH by lia. cbn. rewrite Hx.
  by rewrite (take_S_r l n x).
Qed.

Section Replay.
Context (z : zlib) (fuel : nat) (tasks : list CompressionTask).

(** The lines printed add up on the side: they do not bear on what the
    tasks do. *)
Lemma run_from_console (fs : FS) (lines : list line) (ts : list CompressionTask) :
  foldl (run_task z fuel) (fs, lines) ts =
    ((run_sequential z fuel fs ts).1, lines ++ (run_sequential z fuel fs ts).2).
Proof.
  unfold run_sequential. revert fs lines.
  induction ts as [| t ts IH]; intros fs lines.
  - cbn. by rewrite app_nil_r.
  - cbn [foldl]. unfold run_task at 2 4 6. cbn [fst snd].
    rewrite (IH _ (lines ++ _)), (IH _ ([] ++ _)). cbn [fst snd app].
    by rewrite app_assoc.
Qed.

Lemma run_sequential_cons (fs : FS) (t : CompressionTask)
    (ts : list CompressionTask) :
  let r := processFile z fuel fs (inputPath t) (outputPath t) (compress t)
             (level t) in
  run_sequential z fuel fs (t :: ts) =
    ((run_sequential z fuel (fs_after r) ts).1,
     printed r ++ (run_sequential z fuel (fs_after r) ts).2).
Proof.
  cbv zeta. unfold run_sequential at 1. cbn [foldl].
  unfold run_task at 2. cbn [fst snd app]. apply run_from_console.
Qed.

Lemma run_sequential_snoc (fs : FS) (ts : list CompressionTask)
    (t : CompressionTask) :
  run_sequential z fuel fs (ts ++ [t]) =
    run_task z fuel (run_sequential z fuel fs ts) t.
Proof. unfold run_sequential. apply foldl_snoc. Qed.

(** The store and the console of a pool are those of running, one after the
    other, the tasks that have been run, in the order in which they
    were. *)
Lemma worker_step_replay (fs : FS) (i : nat) (p : Pool) :
  (store p, console p) = run_sequential z fuel fs (executed_tasks tasks p) ->
  let q := worker_step z fuel tasks i p in
  (store q, console q) = run_sequential z fuel fs (executed_tasks tasks q).
Proof.
  intros H. cbv zeta. unfold worker_step.
  destruct (threads p !! i) as [[| k |] |]; cbn zeta; try done.
  - by destruct (length tasks <=? currentTask p).
  - destruct (tasks !! k) as [t |] eqn:Ht; [| done].
    unfold executed_tasks in *. cbn [store console executed].
    rewrite omap_app. cbn. rewrite Ht.
    rewrite run_sequential_snoc, <- H. reflexivity.
Qed.

Lemma pool_replay (numThreads : Z) (sched : list nat) (fs : FS) :
  let p := processFiles z fuel tasks numThreads sched fs in
  (store p, console p) = run_sequential z fuel fs (executed_tasks tasks p).
Proof.
  cbv zeta. unfold processFiles, run_schedule.
  assert (forall p,
    (store p, console p) = run_sequential z fuel fs (executed_tasks tasks p) ->
    let q := foldl (fun q i => worker_step z fuel tasks i q) p sched in
    (store q, console q) = run_sequential z fuel fs (executed_tasks tasks q))
    as Hgen.
  { induction sched as [| i s IH]; intros p Hp; [done |].
    cbn. apply IH. by apply worker_step_replay. }
  by apply Hgen.
Qed.

End Replay.

(** ** The invariant of the pool *)

Lemma elem_of_insert_inv {A} (l : list A) (i : nat) (x y : A) :
  x ∈ <[i := y]> l -> x = y \/ x ∈ l.
Proof.
  intros [j Hj]%list_elem_of_lookup.
  apply list_lookup_insert_Some in Hj as [(_ & -> & _) | (_ & Hj)]; [by left |].
  right. apply list_elem_of_lookup. eauto.
Qed.

Lemma running_from_claim (ws : list worker) (i j k : nat) :
  ws !! i = Some Claiming ->
  running_from j (<[i := Running k]> ws) ≡ₚ (j + i, k) :: running_from j ws.
Proof.
  revert i j. induction ws as [| w ws IH]; intros i j Hi; [done |].
  destruct i as [| i]; cbn in Hi |- *.
  - injection Hi as ->. cbn. by rewrite Nat.add_0_r.
  - replace (j + S i) with (S j + i) by lia.
    destruct w; cbn [running_from]; rewrite (IH i (S j) Hi); [done | | done].
    apply perm_swap.
Qed.

Lemma running_from_run (ws : list worker) (i j k : nat) :
  ws !! i = Some (Running k) ->
  running_from j ws ≡ₚ (j + i, k) :: running_from j (<[i := Claiming]> ws).
Proof.
  revert i j. induction ws as [| w ws IH]; intros i j Hi; [done |].
  destruct i as [| i]; cbn in Hi |- *.
  - injection Hi as ->. cbn. by rewrite Nat.add_0_r.
  - replace (j + S i) with (S j + i) by lia.
    destruct w; cbn [running_from]; rewrite (IH i (S j) Hi) at 1; [done | | done].
    apply perm_swap.
Qed.

Lemma running_from_return (ws : list worker) (i j : nat) :
  ws !! i = Some Claiming ->
  running_from j (<[i := Returned]> ws) = running_from j ws.
Proof.
  revert i j. induction ws as [| w ws IH]; intros i j Hi; [done |].
  destruct i as [| i]; cbn in Hi |- *.
  - by injection Hi as ->.
  - destruct w; first [by apply IH | f_equal; by apply IH].
Qed.

Lemma running_from_lookup (ws : list worker) (i j k : nat) :
  ws !! i = Some (Running k) -> (j + i, k) ∈ running_from j ws.
Proof.
  intros H. rewrite (running_from_run ws i j k H). apply list_elem_of_here.
Qed.

Lemma running_from_joined (ws : list worker) (j : nat) :
  forallb has_returned ws = true -> running_from j ws = [].
Proof.
  revert j. induction ws as [| w ws IH]; intros j H; [done |].
  cbn in H. apply andb_true_iff in H as [Hw H].
  destruct w; try done. cbn. by apply IH.
Qed.

Lemma unreturned_return (ws : list worker) (i : nat) :
  ws !! i = Some Claiming ->
  S (unreturned (<[i := Returned]> ws)) = unreturned ws.
Proof.
  revert i. induction ws as [| w ws IH]; intros i Hi; [done |].
  destruct i as [| i]; cbn in Hi |- *.
  - by injection Hi as ->.
  - pose proof (IH i Hi) as IHi.
    destruct w; first [exact IHi | exact (f_equal S IHi)].
Qed.

Lemma unreturned_keep (ws : list worker) (i : nat) (w w' : worker) :
  ws !! i = Some w -> has_returned w = false -> has_returned w' = false ->
  unreturned (<[i := w']> ws) = unreturned ws.
Proof.
  revert i. induction ws as [| v ws IH]; intros i Hi Hw Hw'; [done |].
  destruct i as [| i]; cbn in Hi |- *.
  - injection Hi as ->. by destruct w, w'.
  - pose proof (IH i Hi Hw Hw') as IHi.
    destruct v; first [exact IHi | exact (f_equal S IHi)].
Qed.

Lemma not_joined (ws : list worker) :
  forallb has_returned ws = false ->
  exists i w, ws !! i = Some w /\ has_returned w = false.
Proof.
  induction ws as [| v ws IH]; intros H; [done |].
  cbn in H. apply andb_false_iff in H as [H | H].
  - exists 0, v. done.
  - destruct (IH H) as (i & w & Hi & Hw). exists (S i), w. done.
Qed.

Section PoolInvariant.
Context (z : zlib) (fuel : nat) (tasks : list CompressionTask).

Lemma spawn_inv (numThreads : Z) (fs : FS) :
  pool_inv tasks (spawn numThreads fs).
Proof.
  split; cbn; [lia | done | |].
  - induction (Z.to_nat numThreads) as [| n IH]; [done |].
    cbn. generalize 0 at 1. intros j. clear IH.
    revert j. induction n as [| n IH]; intros j; [done |]. cbn. apply IH.
  - intros [? [H _]%lookup_replicate]%list_elem_of_lookup. done.
Qed.

(** An index held by a thread has been claimed: it is below the cursor. *)
Lemma inv_running_lt (p : Pool) (i k : nat) :
  pool_inv tasks p -> threads p !! i = Some (Running k) ->
  k < currentTask p /\ k ∉ (executed p).*2.
Proof.
  intros [Hc Hcl Hex Hret] Hi.
  pose proof (running_from_run _ i 0 k Hi) as Hrun. cbn in Hrun.
  rewrite Hrun in Hex.
  assert ((claimed p).*2 ≡ₚ (executed p).*2 ++ k :: (running_from 0 (<[i:=Claiming]> (threads p))).*2) as Hperm.
  { rewrite Hex, fmap_app. done. }
  rewrite Hcl in Hperm. split.
  - assert (k ∈ seq 0 (currentTask p)) as Hin.
    { rewrite Hperm. apply elem_of_app. right. apply list_elem_of_here. }
    apply elem_of_seq in Hin. lia.
  - intros Hin.
    assert (NoDup ((executed p).*2 ++ k :: (running_from 0 (<[i:=Claiming]> (threads p))).*2)) as Hnd.
    { rewrite <- Hperm. apply NoDup_seq. }
    apply NoDup_app in Hnd as (_ & Hdisj & _).
    apply (Hdisj k Hin). apply list_elem_of_here.
Qed.

Lemma worker_step_inv (i : nat) (p : Pool) :
  pool_inv tasks p -> pool_inv tasks (worker_step z fuel tasks i p).
Proof.
  intros Hinv. pose proof Hinv as [Hc Hcl Hex Hret]. unfold worker_step.
  destruct (threads p !! i) as [[| k |] |] eqn:Hi; cbn zeta; try done.
  - destruct (Nat.leb_spec (length tasks) (currentTask p)) as [H | H].
    + split; cbn; [done | done | | intros _; lia].
      by rewrite running_from_return.
    + split; cbn [currentTask claimed threads executed].
      * lia.
      * rewrite fmap_app, Hcl, seq_S. done.
      * rewrite running_from_claim by done. cbn [Nat.add].
        rewrite <- Permutation_cons_append, Hex.
        apply Permutation_middle.
      * intros [E | Hin]%elem_of_insert_inv; [done |]. specialize (Hret Hin). lia.
  - destruct (tasks !! k) as [t |]; [| done].
    split; cbn; [done | done | |].
    + rewrite Hex, (running_from_run _ i 0 k Hi). cbn.
      rewrite <- app_assoc. done.
    + intros [E | Hin]%elem_of_insert_inv; [done | by apply Hret].
Qed.

Lemma run_schedule_inv (sched : list nat) (p : Pool) :
  pool_inv tasks p -> pool_inv tasks (run_schedule z fuel tasks sched p).
Proof.
  unfold run_schedule. revert p.
  induction sched as [| i sched IH]; intros p Hinv; [done |].
  cbn. apply IH. by apply worker_step_inv.
Qed.

(** A step of a thread that has not returned uses up one of the steps
    left. *)
Lemma worker_step_progress (i : nat) (w : worker) (p : Pool) :
  pool_inv tasks p -> threads p !! i = Some w -> has_returned w = false ->
  steps_left tasks (worker_step z fuel tasks i p) < steps_left tasks p.
Proof.
  intros Hinv Hi Hw. pose proof Hinv as [Hc Hcl Hex Hret].
  unfold worker_step, steps_left. rewrite Hi.
  destruct w as [| k |]; [| | done].
  - destruct (Nat.leb_spec (length tasks) (currentTask p)) as [H | H]; cbn.
    + rewrite running_from_return by done.
      rewrite <- (unreturned_return (threads p) i Hi). lia.
    + rewrite (running_from_claim _ i 0 _ Hi).
      rewrite (unreturned_keep _ i Claiming) by done. cbn. lia.
  - destruct (inv_running_lt p i k Hinv Hi) as [Hk _].
    destruct (lookup_lt_is_Some_2 tasks k ltac:(lia)) as [t Ht].
    rewrite Ht. cbn.
    rewrite (running_from_run _ i 0 k Hi).
    rewrite (unreturned_keep _ i (Running k)) by done. cbn. lia.
Qed.

(** From every pool that satisfies the invariant the threads can all be
    brought to return. *)
Lemma pool_can_join (p : Pool) :
  pool_inv tasks p ->
  exists sched, joined (run_schedule z fuel tasks sched p) = true.
Proof.
  remember (steps_left tasks p) as n eqn:Hn.
  assert (steps_left tasks p <= n) as Hle by lia. clear Hn.
  revert p Hle. induction n as [| n IH]; intros p Hle Hinv.
  - destruct (joined p) eqn:Hj; [by exists [] |].
    destruct (not_joined _ Hj) as (i & w & Hi & Hw).
    pose proof (worker_step_progress i w p Hinv Hi Hw). lia.
  - destruct (joined p) eqn:Hj; [by exists [] |].
    destruct (not_joined _ Hj) as (i & w & Hi & Hw).
    pose proof (worker_step_progress i w p Hinv Hi Hw) as Hlt.
    destruct (IH (worker_step z fuel tasks i p)) as [sched Hs];
      [lia | by apply worker_step_inv |].
    by exists (i :: sched).
Qed.

(** A pair is recorded as claimed by a thread of the pool. *)
Lemma worker_step_claimed_by (i : nat) (p : Pool) :
  Forall (fun e => e.1 < length (threads p)) (claimed p) ->
  let q := worker_step z fuel tasks i p in
  Forall (fun e => e.1 < length (threads q)) (claimed q).
Proof.
  intros H. cbv zeta. rewrite worker_step_threads_length.
  unfold worker_step.
  destruct (threads p !! i) as [[| k |] |] eqn:Hi; cbn zeta; try done.
  - destruct (length tasks <=? currentTask p); cbn [claimed]; [done |].
    apply Forall_app. split; [done |].
    constructor; [| constructor]. cbn [fst].
    apply lookup_lt_is_Some. by eexists.
  - by destruct (tasks !! k).
Qed.

Lemma run_schedule_claimed_by (sched : list nat) (p : Pool) :
  Forall (fun e => e.1 < length (threads p)) (claimed p) ->
  let q := run_schedule z fuel tasks sched p in
  Forall (fun e => e.1 < length (threads q)) (claimed q).
Proof.
  cbv zeta. unfold run_schedule. revert p.
  induction sched as [| i sched IH]; intros p H; [done |].
  cbn [foldl]. apply IH. by apply worker_step_claimed_by.
Qed.

End PoolInvariant.

(** C2. With at least one worker, in every interleaving of the threads: the
    indices claimed so far are [0, 1, ...] up to the cursor, each once and
    in this order, and the cursor never passes the number of tasks; the
    cursor never goes down as the run goes on; a step changes the cursor
    only by the one increment of a claim.  A thread that holds an index
    holds the index of a task of the list, and its next step is the call of
    [processFile] on that very task, on the store as it is then: the store
    and the console after the step are those that the call leaves, and the
    (thread, index) pair is recorded as run; any other step leaves the store,
    the console and the pairs run as they are.  So at every point the store
    and the console are those of running, one after the other, the tasks
    whose indices have been run, in the order in which they were.  Once all
    threads have returned, the indices claimed are exactly those of the
    tasks, each once, the (thread, index) pairs run are the pairs claimed,
    and the tasks run are the tasks of the list, each as many times as it is
    in the list; and from every point of a run the threads can all
    return.  The pool has as many threads as the worker count says, and
    every pair claimed names one of them. *)
Theorem exactly_once_claiming (z : zlib) (fuel : nat)
    (tasks : list CompressionTask) (numThreads : Z) (sched : list nat) (fs : FS) :
  (1 <= numThreads)%Z ->
  let p := processFiles z fuel tasks numThreads sched fs in
  (claimed p).*2 = seq 0 (currentTask p)
  /\ currentTask p <= length tasks
  /\ (forall more,
        currentTask p <=
        currentTask (processFiles z fuel tasks numThreads (sched ++ more) fs))
  /\ (forall i,
        let q := worker_step z fuel tasks i p in
        (currentTask q = currentTask p /\ claimed q = claimed p)
        \/ (threads p !! i = Some Claiming
            /\ currentTask p < length tasks
            /\ currentTask q = S (currentTask p)
            /\ claimed q = claimed p ++ [(i, currentTask p)]
            /\ threads q !! i = Some (Running (currentTask p))))
  /\ (joined p = true ->
        (claimed p).*2 = seq 0 (length tasks)
        /\ NoDup (executed p).*2
        /\ executed p ≡ₚ claimed p)
  /\ (exists more,
        joined (processFiles z fuel tasks numThreads (sched ++ more) fs) = true)
  /\ (forall i k,
        threads p !! i = Some (Running k) ->
        exists t,
          tasks !! k = Some t
          /\ let r := processFile z fuel (store p) (inputPath t) (outputPath t)
                        (compress t) (level t) in
             let q := worker_step z fuel tasks i p in
             store q = fs_after r
             /\ console q = console p ++ printed r
             /\ executed q = executed p ++ [(i, k)])
  /\ (forall i,
        (forall k, threads p !! i <> Some (Running k)) ->
        let q := worker_step z fuel tasks i p in
        store q = store p /\ console q = console p /\ executed q = executed p)
  /\ (store p, console p) = run_sequential z fuel fs (executed_tasks tasks p)
  /\ (joined p = true -> executed_tasks tasks p ≡ₚ tasks)
  /\ length (threads p) = Z.to_nat numThreads
  /\ Forall (fun e => e.1 < Z.to_nat numThreads) (claimed p).
Proof.
  intros HN p.
  assert (pool_inv tasks p) as Hinv.
  { apply run_schedule_inv, spawn_inv. }
  pose proof Hinv as [Hc Hcl Hex Hret].
  assert (length (threads p) = Z.to_nat numThreads) as Hlen.
  { subst p. unfold processFiles.
    rewrite run_schedule_threads_length. cbn. apply length_replicate. }
  assert (joined p = true ->
          currentTask p = length tasks /\ executed p ≡ₚ claimed p) as Hjoin.
  { intros Hj. unfold joined in Hj. split.
    - apply Hret.
      destruct (threads p) as [| w ws] eqn:Hws; [cbn in Hlen; lia |].
      cbn in Hj. apply andb_true_iff in Hj as [Hw _].
      destruct w; try done. apply list_elem_of_here.
    - by rewrite (running_from_joined _ 0 Hj), app_nil_r in Hex. }
  split; [done |]. split; [done |].
  split; [| split; [| split; [| split; [| split; [| split; [| split;
    [| split; [| split; [done |]]]]]]]]].
  - intros more. unfold processFiles. rewrite run_schedule_app.
    apply run_schedule_cursor_le.
  - intros i. apply worker_step_cursor.
  - intros Hj. destruct (Hjoin Hj) as [Hall Hperm].
    rewrite <- Hall. split; [done |]. split; [| done].
    rewrite Hperm, Hcl. apply NoDup_seq.
  - destruct (pool_can_join z fuel tasks p Hinv) as [more Hmore].
    exists more. unfold processFiles. by rewrite run_schedule_app.
  - intros i k Hi.
    destruct (inv_running_lt tasks p i k Hinv Hi) as [Hlt _].
    destruct (lookup_lt_is_Some_2 tasks k ltac:(lia)) as [t Ht].
    exists t. split; [done |]. cbv zeta. unfold worker_step.
    rewrite Hi, Ht. done.
  - intros i Hi. cbv zeta. unfold worker_step.
    destruct (threads p !! i) as [[| k |] |] eqn:Hw; [| | done | done].
    + by destruct (length tasks <=? currentTask p).
    + by destruct (Hi k).
  - apply pool_replay.
  - intros Hj. destruct (Hjoin Hj) as [Hall Hperm].
    unfold executed_tasks. rewrite omap_lookup_snd, Hperm, Hcl, Hall.
    rewrite omap_lookup_seq by done. by rewrite firstn_all.
  - rewrite <- Hlen. subst p. unfold processFiles.
    apply run_schedule_claimed_by. cbn. constructor.
Qed.

(** ** A task that cannot be opened *)

Lemma cursor_without_le (k c : nat) : c <= k -> cursor_without k c = c.
Proof.
  intros H. unfold cursor_without.
  destruct (Nat.leb_spec c k); [done | lia].
Qed.

Lemma cursor_without_gt (k c : nat) : k < c -> cursor_without k c = pred c.
Proof.
  intros H. unfold cursor_without.
  destruct (Nat.leb_spec c k); [lia | done].
Qed.

Lemma index_without_lt (k j : nat) : j < k -> index_without k j = j.
Proof.
  intros H. unfold index_without.
  destruct (Nat.ltb_spec j k); [done | lia].
Qed.

Lemma index_without_gt (k j : nat) : k < j -> index_without k j = pred j.
Proof.
  intros H. unfold index_without.
  destruct (Nat.ltb_spec j k); [lia | done].
Qed.

Lemma worker_without_other (k j : nat) :
  j <> k -> worker_without k (Running j) = Running (index_without k j).
Proof.
  intros H. unfold worker_without.
  destruct (Nat.eqb_spec j k); [done | done].
Qed.

Lemma worker_without_self (k : nat) : worker_without k (Running k) = Claiming.
Proof. unfold worker_without. by rewrite Nat.eqb_refl. Qed.

(** The tasks other than the one at [length pre] are the same tasks in the
    batch without it. *)
Lemma lookup_without (pre post : list CompressionTask) (bad : CompressionTask)
    (j : nat) :
  j <> length pre ->
  (pre ++ post) !! index_without (length pre) j = (pre ++ bad :: post) !! j.
Proof.
  intros Hne. destruct (Nat.lt_ge_cases j (length pre)) as [H | H].
  - rewrite index_without_lt by done. by rewrite !lookup_app_l by done.
  - rewrite index_without_gt by lia. rewrite !lookup_app_r by lia.
    replace (j - length pre) with (S (pred j - length pre)) by lia. done.
Qed.

Lemma joined_without (k : nat) (ws : list worker) :
  forallb has_returned ws = true ->
  forallb has_returned (worker_without k <$> ws) = true.
Proof.
  induction ws as [| w ws IH]; [done |]. cbn.
  intros [Hw H]%andb_true_iff. rewrite (IH H). by destruct w.
Qed.

Section Unopenable.
Context (z : zlib) (fuel : nat).

(** A task that cannot be opened is given up at one of the two opens: the
    store stays as it is, zlib is not called, one diagnostic is printed. *)
Lemma processFile_unopenable (fs : FS) (others : list CompressionTask)
    (t : CompressionTask) :
  unopenable fs others t ->
  let r := processFile z fuel fs (inputPath t) (outputPath t) (compress t) (level t) in
  fs_after r = fs /\ calls r = []
  /\ (printed r = [Cerr ("Error opening input file: " +:+ inputPath t)]
      /\ status r = InputOpenError
      \/ printed r = [Cerr ("Error opening output file: " +:+ outputPath t)]
         /\ status r = OutputOpenError).
Proof.
  intros Hbad r. subst r. unfold processFile.
  destruct (can_open_in fs (inputPath t)) eqn:Hin; cbn [negb]; [| by auto].
  destruct (can_open_out fs (outputPath t)) eqn:Hout; cbn [negb]; [| by auto].
  apply can_open_in_true in Hin as [[b Hb] Hin].
  apply can_open_out_true in Hout.
  destruct Hbad as [H | [H | [H _]]]; [done | done | congruence].
Qed.

(** [processFile] leaves the bars on paths as they are, and the files other
    than its destination. *)
Lemma processFile_bars (fs : FS) (inp outp : string) (c : bool) (lvl : Z) :
  let r := processFile z fuel fs inp outp c lvl in
  noread (fs_after r) = noread fs /\ nowrite (fs_after r) = nowrite fs.
Proof.
  cbv zeta. unfold processFile.
  destruct (can_open_in fs inp); cbn [negb]; [| done].
  destruct (can_open_out fs outp); cbn [negb]; [| done].
  cbv zeta. by case_match.
Qed.

Lemma processFile_other_files (fs : FS) (inp outp : string) (c : bool) (lvl : Z)
    (p : string) :
  p <> outp ->
  files (fs_after (processFile z fuel fs inp outp c lvl)) !! p = files fs !! p.
Proof.
  intros Hp. unfold processFile.
  destruct (can_open_in fs inp); cbn [negb]; [| done].
  destruct (can_open_out fs outp); cbn [negb]; [| done].
  cbv zeta. case_match; cbn [fs_after set_file files];
    by rewrite !lookup_insert_ne.
Qed.

Context (pre post : list CompressionTask) (bad : CompressionTask).

Lemma worker_step_unopenable (i : nat) (p : Pool) :
  unopenable (store p) (pre ++ post) bad ->
  unopenable (store (worker_step z fuel (pre ++ bad :: post) i p)) (pre ++ post) bad.
Proof.
  intros Hbad. unfold worker_step.
  destruct (threads p !! i) as [[| j |] |]; cbn zeta; try done.
  - by destruct (length (pre ++ bad :: post) <=? currentTask p).
  - destruct ((pre ++ bad :: post) !! j) as [u |] eqn:Hu; [| done]. cbn [store].
    apply list_elem_of_lookup_2 in Hu.
    assert (u = bad \/ u ∈ pre ++ post) as [-> | Hin].
    { rewrite elem_of_app, elem_of_cons in Hu. rewrite elem_of_app. tauto. }
    + by destruct (processFile_unopenable (store p) (pre ++ post) bad Hbad) as [-> _].
    + destruct (processFile_bars (store p) (inputPath u) (outputPath u)
                  (compress u) (level u)) as [Hr Hw]. cbv zeta in Hr, Hw.
      unfold unopenable. rewrite Hr, Hw.
      destruct Hbad as [H | [H | [H Hothers]]]; [by left | by right; left |].
      right. right. split; [| done].
      rewrite processFile_other_files; [done |]. intros E. by apply (Hothers u).
Qed.

(** One step of the whole batch is matched, in the batch without [bad], by
    the same step or, when the step claims or runs [bad], by no step. *)
Lemma worker_step_without (i : nat) (p q : Pool) :
  pool_inv (pre ++ bad :: post) p ->
  unopenable (store p) (pre ++ post) bad ->
  pool_without (length pre) bad p q ->
  let p' := worker_step z fuel (pre ++ bad :: post) i p in
  pool_without (length pre) bad p' (worker_step z fuel (pre ++ post) i q)
  \/ pool_without (length pre) bad p' q.
Proof.
  intros Hinv Hbad Hpq p'. pose proof Hpq as [Hcur Hthr Hsto Hafter Hbefore].
  assert (threads q !! i = worker_without (length pre) <$> threads p !! i) as Hqi.
  { by rewrite Hthr, list_lookup_fmap. }
  subst p'. unfold worker_step. rewrite Hqi.
  destruct (threads p !! i) as [[| j |] |] eqn:Hi; cbn [fmap option_fmap option_map];
    cbn zeta; [| | by right | by right].
  - (* the critical section *)
    rewrite !length_app. cbn [length].
    destruct (Nat.leb_spec (length pre + S (length post)) (currentTask p)) as [H | H].
    + left. rewrite Hcur, cursor_without_gt by lia.
      destruct (Nat.leb_spec (length pre + length post) (pred (currentTask p)));
        [| lia].
      split; cbn; try done.
      * by rewrite cursor_without_gt by lia.
      * by rewrite Hthr, list_fmap_insert.
    + destruct (decide (currentTask p = length pre)) as [E | E].
      * right. split; cbn; try done.
        -- rewrite Hcur, E, cursor_without_le, cursor_without_gt by lia. done.
        -- rewrite list_fmap_insert, E, worker_without_self, <- Hthr.
           symmetry. apply list_insert_id. by rewrite Hqi.
      * left. rewrite Hcur.
        destruct (Nat.lt_ge_cases (currentTask p) (length pre)) as [L | L].
        -- rewrite !cursor_without_le by lia.
           destruct (Nat.leb_spec (length pre + length post) (currentTask p));
             [lia |].
           split; cbn; try done.
           ++ by rewrite cursor_without_le by lia.
           ++ rewrite list_fmap_insert, worker_without_other by done.
              by rewrite index_without_lt, Hthr by done.
        -- rewrite !cursor_without_gt by lia.
           destruct (Nat.leb_spec (length pre + length post) (pred (currentTask p)));
             [lia |].
           split; cbn; try done.
           ++ rewrite cursor_without_gt by lia. lia.
           ++ rewrite list_fmap_insert, worker_without_other by done.
              by rewrite index_without_gt, Hthr by lia.
  - (* the call of processFile *)
    destruct (inv_running_lt _ p i j Hinv Hi) as [Hj Hnew].
    destruct (decide (j = length pre)) as [-> | Hne].
    + right. rewrite list_lookup_middle by done.
      destruct (processFile_unopenable (store p) _ bad Hbad) as (Hfs & _ & Hpr).
      cbv zeta in Hfs, Hpr.
      split; cbn [currentTask threads store console executed]; try done.
      * rewrite list_fmap_insert, <- Hthr. symmetry. apply list_insert_id.
        rewrite Hqi. cbn [fmap option_fmap option_map].
        by rewrite worker_without_self.
      * by rewrite Hfs.
      * intros _. rewrite <- (Hbefore Hnew).
        destruct Hpr as [[-> _] | [-> _]];
          eexists (console p), [], _; (split; [| by rewrite app_nil_r]);
          [by left | by right].
      * intros Hn. exfalso. apply Hn. rewrite fmap_app. apply elem_of_app.
        right. cbn. apply list_elem_of_here.
    + left. rewrite worker_without_other by done.
      rewrite (lookup_without pre post bad) by done.
      destruct ((pre ++ bad :: post) !! j) as [t |]; [| done].
      rewrite Hsto.
      assert (length pre ∈ (executed p ++ [(i, j)]).*2 <-> length pre ∈ (executed p).*2)
        as Hsame.
      { rewrite fmap_app, elem_of_app. cbn. rewrite list_elem_of_singleton.
        split; [intros [? | ?]; [done | congruence] | by left]. }
      split; cbn [currentTask threads store console executed]; try done.
      * by rewrite Hthr, list_fmap_insert.
      * intros (l1 & l2 & d & Hd & H1 & H2)%Hsame%Hafter.
        exists l1, (l2 ++ printed (processFile z fuel (store p) (inputPath t)
                                     (outputPath t) (compress t) (level t))), d.
        split; [done |]. rewrite H1, H2, <- !app_assoc. done.
      * intros Hn. rewrite Hbefore; [done |]. by rewrite <- Hsame.
Qed.

Lemma run_schedule_without (sched : list nat) (p q : Pool) :
  pool_inv (pre ++ bad :: post) p ->
  unopenable (store p) (pre ++ post) bad ->
  pool_without (length pre) bad p q ->
  exists sched',
    pool_without (length pre) bad
      (run_schedule z fuel (pre ++ bad :: post) sched p)
      (run_schedule z fuel (pre ++ post) sched' q).
Proof.
  revert p q. induction sched as [| i sched IH]; intros p q Hinv Hbad Hpq.
  - by exists [].
  - destruct (worker_step_without i p q Hinv Hbad Hpq) as [Hstep | Hskip].
    + destruct (IH _ _ (worker_step_inv z fuel _ i p Hinv)
                  (worker_step_unopenable i p Hbad) Hstep) as [sched' H].
      by exists (i :: sched').
    + destruct (IH _ _ (worker_step_inv z fuel _ i p Hinv)
                  (worker_step_unopenable i p Hbad) Hskip) as [sched' H].
      by exists sched'.
Qed.

End Unopenable.

Lemma run_schedule_unopenable (z : zlib) (fuel : nat)
    (pre post : list CompressionTask) (bad : CompressionTask)
    (sched : list nat) (p : Pool) :
  unopenable (store p) (pre ++ post) bad ->
  unopenable (store (run_schedule z fuel (pre ++ bad :: post) sched p))
    (pre ++ post) bad.
Proof.
  unfold run_schedule. revert p.
  induction sched as [| i sched IH]; intros p H; [done |].
  cbn. apply IH. by apply worker_step_unopenable.
Qed.

Lemma spawn_without (k : nat) (t : CompressionTask) (numThreads : Z) (fs : FS) :
  pool_without k t (spawn numThreads fs) (spawn numThreads fs).
Proof.
  split; cbn [currentTask threads store console executed spawn]; try done.
  - by rewrite fmap_replicate.
  - by intros ?%elem_of_nil.
Qed.

(** Once every thread has returned, every index has been run. *)
Lemma joined_executed (tasks : list CompressionTask) (p : Pool) (k : nat) :
  pool_inv tasks p -> joined p = true -> threads p <> [] ->
  k < length tasks -> k ∈ (executed p).*2.
Proof.
  intros [Hc Hcl Hex Hret] Hj Hne Hk. unfold joined in Hj.
  rewrite (running_from_joined _ 0 Hj), app_nil_r in Hex.
  rewrite <- Hex, Hcl, Hret; [apply elem_of_seq; lia |].
  destruct (threads p) as [| w ws]; [done |].
  cbn in Hj. apply andb_true_iff in Hj as [Hw _].
  destruct w; try done. apply list_elem_of_here.
Qed.

(** C3. Let a task of the batch be one that cannot be opened: its source or
    its destination is barred, or its source does not exist and no other
    task of the batch writes it.  Wherever the batch has got to, running that task
    leaves the store as it is, calls zlib not at all and prints one
    diagnostic.  And every run of the batch, under any interleaving and any
    number of workers, is matched by a run of the batch without that task
    that reaches the same store and the same console, the diagnostic apart;
    when the first has returned so has the second, and then, with at least
    one worker, the diagnostic is on the console.  From every point the run
    with the task can go on until all threads have returned. *)
Theorem open_failure_is_isolated (z : zlib) (fuel : nat)
    (pre post : list CompressionTask) (bad : CompressionTask)
    (numThreads : Z) (sched : list nat) (fs : FS) :
  unopenable fs (pre ++ post) bad ->
  let p := processFiles z fuel (pre ++ bad :: post) numThreads sched fs in
  (let r := processFile z fuel (store p) (inputPath bad) (outputPath bad)
              (compress bad) (level bad) in
   fs_after r = store p /\ calls r = [] /\ status r <> Processed
   /\ exists d, open_diagnostic bad d /\ printed r = [d])
  /\ (exists sched',
        let q := processFiles z fuel (pre ++ post) numThreads sched' fs in
        store q = store p
        /\ (console p = console q \/ console_with bad (console p) (console q))
        /\ (joined p = true ->
            joined q = true
            /\ ((1 <= numThreads)%Z -> console_with bad (console p) (console q))))
  /\ (exists more,
        joined (processFiles z fuel (pre ++ bad :: post) numThreads
                  (sched ++ more) fs) = true).
Proof.
  intros Hbad p.
  assert (pool_inv (pre ++ bad :: post) p) as Hinv.
  { apply run_schedule_inv, spawn_inv. }
  assert (unopenable (store p) (pre ++ post) bad) as Hbad'.
  { by apply run_schedule_unopenable. }
  assert (length (threads p) = Z.to_nat numThreads) as Hlen.
  { unfold p, processFiles.
    rewrite run_schedule_threads_length. cbn. apply length_replicate. }
  destruct (run_schedule_without z fuel pre post bad sched
              (spawn numThreads fs) (spawn numThreads fs)
              (spawn_inv _ numThreads fs) Hbad
              (spawn_without (length pre) bad numThreads fs))
    as [sched' Hpq].
  fold (processFiles z fuel (pre ++ bad :: post) numThreads sched fs) in Hpq.
  fold p in Hpq.
  assert (exists more,
    joined (processFiles z fuel (pre ++ bad :: post) numThreads
              (sched ++ more) fs) = true) as Hjoin.
  { destruct (pool_can_join z fuel _ p Hinv) as [more Hmore].
    exists more. unfold processFiles. by rewrite run_schedule_app. }
  clearbody p. destruct Hpq as [Hcur Hthr Hsto Hafter Hbefore].
  split; [| split].
  - destruct (processFile_unopenable z fuel (store p) _ bad Hbad') as (Hfs & Hc & Hpr).
    cbv zeta in *. split; [done |]. split; [done |].
    destruct Hpr as [[-> ->] | [-> ->]]; (split; [done |]); eexists; split; try done.
    + by left.
    + by right.
  - exists sched'. cbv zeta. unfold processFiles.
    split; [done |]. split; [| intros Hj; split].
    + destruct (decide (length pre ∈ (executed p).*2)) as [Hin | Hin];
        [right; by apply Hafter | left; by apply Hbefore].
    + unfold joined in *. rewrite Hthr. by apply joined_without.
    + intros HN. apply Hafter.
      apply (joined_executed (pre ++ bad :: post)); try done.
      * intros Hnil. rewrite Hnil in Hlen. cbn in Hlen. lia.
      * rewrite length_app. cbn. lia.
  - done.
Qed.

(** ** The statements at sample inputs *)

Lemma sample_locked : "locked.bin" ∈ noread Sample.disk.
Proof. unfold Sample.disk. cbn [noread]. by apply elem_of_singleton. Qed.

Lemma sample_readable (p : string) : p <> "locked.bin" -> p ∉ noread Sample.disk.
Proof. unfold Sample.disk. cbn [noread]. intros H. by rewrite elem_of_singleton. Qed.

Lemma sample_writable (p : string) : p ∉ nowrite Sample.disk.
Proof. unfold Sample.disk. cbn [nowrite]. apply not_elem_of_empty. Qed.

Lemma sample_zeros_length : length Sample.zeros = 1 * BUFFER_SIZE.
Proof. unfold Sample.zeros. rewrite length_replicate. lia. Qed.

Lemma sample_big_lookup :
  files Sample.big_disk !! "large_test_file.bin" = Some Sample.zeros.
Proof. unfold Sample.big_disk. cbn [files]. apply lookup_singleton_eq. Qed.

Lemma sample_big_readable (p : string) : p ∉ noread Sample.big_disk.
Proof. unfold Sample.big_disk. cbn [noread]. apply not_elem_of_empty. Qed.

Lemma sample_big_writable (p : string) : p ∉ nowrite Sample.big_disk.
Proof. unfold Sample.big_disk. cbn [nowrite]. apply not_elem_of_empty. Qed.

Lemma source_failure_leaves_destination_witness :
  "locked.bin" ∈ noread Sample.disk
  /\ let r := processFile Ref.api 4 Sample.disk "locked.bin" "notes.txt" true 6 in
     fs_after r = Sample.disk
     /\ files (fs_after r) !! "notes.txt" = files Sample.disk !! "notes.txt"
     /\ status r = InputOpenError
     /\ printed r = [Cerr ("Error opening input file: " +:+ "locked.bin")]
     /\ calls r = [].
Proof.
  split; [apply sample_locked |].
  apply (source_failure_leaves_destination Ref.api 4 Sample.disk
           "locked.bin" "notes.txt" true 6).
  right. apply sample_locked.
Defined.

Lemma compress_empty_source_witness :
  files Sample.disk !! "empty.bin" = Some []
  /\ let r := processFile Ref.api 1 Sample.disk "empty.bin" "out/empty.bin.gz" true 6 in
     status r = Processed
     /\ calls r = [CdeflateInit 6; CdeflateEnd]
     /\ files (fs_after r) !! "out/empty.bin.gz" = Some [].
Proof.
  assert (files Sample.disk !! "empty.bin" = Some []) as H by reflexivity.
  split; [exact H |].
  destruct (compress_empty_source Ref.api 0 Sample.disk "empty.bin"
              "out/empty.bin.gz" 6 H
              (sample_readable "empty.bin" ltac:(discriminate)) (sample_writable _))
    as (H1 & H2 & H3 & _).
  auto.
Defined.

Lemma error_code_reported_as_processed_witness :
  ret (inflate Ref.api (inflateInit Ref.api) [x00; x01] BUFFER_SIZE Z_NO_FLUSH)
    = Z_DATA_ERROR
  /\ let r := processFile Ref.api 2 Sample.disk "garbage.gz" "out/garbage" false 0 in
     status r = Processed
     /\ printed r = [Cout ("Processed: " +:+ "garbage.gz" +:+ " -> " +:+ "out/garbage")]
     /\ calls r = [CinflateInit; Cinflate 2 Z_NO_FLUSH Z_DATA_ERROR; CinflateEnd].
Proof.
  split; [reflexivity |].
  destruct (error_code_reported_as_processed Ref.api 0 Sample.disk
              "garbage.gz" "out/garbage" 0 [x00; x01] Z_DATA_ERROR)
    as (H1 & H2 & H3 & _).
  - reflexivity.
  - apply sample_readable. discriminate.
  - apply sample_writable.
  - discriminate.
  - cbn [length]. unfold BUFFER_SIZE. lia.
  - reflexivity.
  - discriminate.
  - cbn. apply BUFFER_SIZE_pos.
  - auto.
Defined.

Lemma buffer_multiple_never_finished_witness :
  length Sample.zeros = 1 * BUFFER_SIZE
  /\ let r := processFile Ref.api 3 Sample.big_disk "large_test_file.bin"
                "compressed_test.gz" true Z_DEFAULT_COMPRESSION in
     Forall (fun c => signals_finish c = false) (calls r).
Proof.
  split; [apply sample_zeros_length |].
  apply (buffer_multiple_never_finished Ref.api 2 Sample.big_disk
           "large_test_file.bin" "compressed_test.gz" Z_DEFAULT_COMPRESSION
           Sample.zeros 1).
  - apply sample_big_lookup.
  - apply sample_big_readable.
  - apply sample_big_writable.
  - discriminate.
  - lia.
  - apply sample_zeros_length.
Defined.

Lemma roundtrip_lost_on_buffer_multiple_witness :
  length Sample.zeros = 1 * BUFFER_SIZE
  /\ let c := processFile Ref.api 2 Sample.big_disk "large_test_file.bin"
                "compressed_test.gz" true Z_DEFAULT_COMPRESSION in
     let d := processFile Ref.api 2 (fs_after c) "compressed_test.gz"
                "decompressed_test.bin" false Z_DEFAULT_COMPRESSION in
     status c = Processed
     /\ status d = Processed
     /\ files (fs_after c) !! "compressed_test.gz" = Some []
     /\ files (fs_after d) !! "decompressed_test.bin" = Some []
     /\ Sample.zeros <> [].
Proof.
  split; [apply sample_zeros_length |].
  apply (roundtrip_lost_on_buffer_multiple 2 Sample.big_disk
           "large_test_file.bin" "compressed_test.gz" "decompressed_test.bin"
           Z_DEFAULT_COMPRESSION Sample.zeros 1).
  - apply sample_big_lookup.
  - apply sample_big_readable.
  - apply sample_big_readable.
  - apply sample_big_writable.
  - apply sample_big_writable.
  - discriminate.
  - unfold Z_DEFAULT_COMPRESSION. lia.
  - lia.
  - apply sample_zeros_length.
  - lia.
Defined.

Lemma drain_loop_terminates_witness :
  bounded_output Ref.api BUFFER_SIZE Ref.owed
  /\ exists F, forall fuel, F <= fuel ->
       status (processFile Ref.api fuel Sample.disk "notes.txt"
                 "out/notes.txt.gz" true 6) <> OutOfFuel.
Proof.
  assert (bounded_output Ref.api BUFFER_SIZE Ref.owed) as Hb.
  { apply ref_bounded_output, BUFFER_SIZE_pos. }
  split; [exact Hb |].
  destruct (drain_loop_terminates Ref.api Ref.owed Sample.disk "notes.txt"
              "out/notes.txt.gz" true 6 Hb) as (_ & _ & F & HF).
  exists F. intros fuel Hle. exact (proj1 (HF fuel Hle)).
Defined.

Lemma nonpositive_worker_count_runs_nothing_witness :
  (0 <= 0)%Z
  /\ let p := processFiles Ref.api 4 [Sample.notes; Sample.empty] 0 [0; 1; 0]
                Sample.disk in
     joined p = true /\ executed p = [] /\ store p = Sample.disk /\ console p = [].
Proof.
  split; [lia |].
  destruct (nonpositive_worker_count_runs_nothing Ref.api 4
              [Sample.notes; Sample.empty] 0 [0; 1; 0] Sample.disk ltac:(lia))
    as (H1 & _ & _ & _ & H2 & H3 & H4).
  auto.
Defined.

(** C7 (the claim as stated fails). With two tasks waiting and a worker
    count of 0, [processFiles] returns as from a completed run: every
    [join] is over, no diagnostic has been printed, and no task has been
    run. *)
Lemma zero_workers_return_silently :
  let p := processFiles Ref.api 4 [Sample.notes; Sample.empty] 0 [] Sample.disk in
  ~ (joined p = false \/ console p <> [])
  /\ executed p = []
  /\ store p = Sample.disk.
Proof.
  cbv zeta. split; [| split]; [| reflexivity | reflexivity].
  intros [H | H]; [discriminate H | by apply H].
Qed.

Lemma exactly_once_claiming_witness :
  (1 <= 2)%Z
  /\ let tasks := [Sample.notes; Sample.locked; Sample.empty] in
     let p := processFiles Ref.api 4 tasks 2 [0; 1; 0; 1; 0; 1; 0; 1; 0]
                Sample.disk in
     joined p = true
     /\ (claimed p).*2 = [0; 1; 2]
     /\ executed p ≡ₚ claimed p
     /\ executed_tasks tasks p ≡ₚ tasks
     /\ (store p, console p) =
          run_sequential Ref.api 4 Sample.disk (executed_tasks tasks p)
     /\ length (threads p) = 2.
Proof.
  split; [lia |].
  destruct (exactly_once_claiming Ref.api 4
              [Sample.notes; Sample.locked; Sample.empty] 2
              [0; 1; 0; 1; 0; 1; 0; 1; 0] Sample.disk ltac:(lia))
    as (_ & _ & _ & _ & H & _ & _ & _ & Hrun & Hall & Hlen & _).
  cbv zeta. split; [reflexivity |].
  destruct (H eq_refl) as (H1 & _ & H2).
  split; [exact H1 |]. split; [exact H2 |].
  split; [exact (Hall eq_refl) |]. split; [exact Hrun | exact Hlen].
Defined.

Lemma open_failure_is_isolated_witness :
  unopenable Sample.disk [Sample.notes; Sample.empty] Sample.locked
  /\ let p := processFiles Ref.api 4 [Sample.notes; Sample.locked; Sample.empty] 2
                [0; 1; 0; 1; 0; 1; 0; 1; 0] Sample.disk in
     exists sched',
       let q := processFiles Ref.api 4 [Sample.notes; Sample.empty] 2 sched'
                  Sample.disk in
       store q = store p
       /\ (console p = console q \/ console_with Sample.locked (console p) (console q))
       /\ (joined p = true ->
           joined q = true
           /\ ((1 <= 2)%Z -> console_with Sample.locked (console p) (console q))).
Proof.
  assert (unopenable Sample.disk [Sample.notes; Sample.empty] Sample.locked) as H.
  { left. apply sample_locked. }
  split; [exact H |].
  exact (proj1 (proj2 (open_failure_is_isolated Ref.api 4 [Sample.notes] [Sample.empty]
                         Sample.locked 2 [0; 1; 0; 1; 0; 1; 0; 1; 0]
                         Sample.disk H))).
Defined.


(** * Further properties of [processFile] *)

Section FileFacts.
Context (z : zlib) (fuel : nat).

(** What a run does depends on the store only through the source's content
    and the bars on the two paths, and it changes the store at the
    destination only. *)
Lemma processFile_agree (fs fs' : FS) (inp outp : string) (c : bool) (lvl : Z) :
  files fs !! inp = files fs' !! inp ->
  noread fs = noread fs' -> nowrite fs = nowrite fs' ->
  let r := processFile z fuel fs inp outp c lvl in
  let r' := processFile z fuel fs' inp outp c lvl in
  printed r = printed r' /\ status r = status r' /\ calls r = calls r'
  /\ (fs_after r = fs /\ fs_after r' = fs'
      \/ exists W, fs_after r = set_file fs outp W
                   /\ fs_after r' = set_file fs' outp W).
Proof.
  intros Hin Hnr Hnw r r'. subst r r'. unfold processFile.
  assert (can_open_in fs' inp = can_open_in fs inp) as ->.
  { unfold can_open_in. by rewrite Hin, Hnr. }
  assert (can_open_out fs' outp = can_open_out fs outp) as ->.
  { unfold can_open_out. by rewrite Hnw. }
  destruct (can_open_in fs inp); cbn [negb]; [| by auto 10].
  destruct (can_open_out fs outp); cbn [negb]; [| by auto 10].
  cbv zeta.
  assert (files (set_file fs' outp []) !! inp = files (set_file fs outp []) !! inp)
    as ->.
  { unfold set_file. cbn [files].
    destruct (decide (outp = inp)) as [-> | Hne].
    - by rewrite !lookup_insert_eq.
    - by rewrite !lookup_insert_ne. }
  rewrite !set_file_twice.
  case_match; cbn [printed status calls fs_after]; repeat split; eauto.
Qed.

(** X1. When source and destination are the same path, opening the
    destination truncates the file before anything is read: the first read
    finds no byte, the transform is opened and closed without a call on any
    data, the file is left empty, and the job is reported as processed. *)
Theorem same_path_empties_the_file (fs : FS) (path : string) (c : bool)
    (lvl : Z) (data : bytes) :
  files fs !! path = Some data -> path ∉ noread fs -> path ∉ nowrite fs ->
  let r := processFile z (S fuel) fs path path c lvl in
  status r = Processed
  /\ files (fs_after r) !! path = Some []
  /\ calls r = [init_call c lvl; end_call c]
  /\ printed r = [Cout ("Processed: " +:+ path +:+ " -> " +:+ path)].
Proof.
  intros Hin Hr Hw r. subst r.
  rewrite (processFile_open z _ fs path path c lvl data Hin Hr Hw).
  cbv zeta. rewrite decide_True by done.
  rewrite chunk_loop_at_end by apply BUFFER_SIZE_pos.
  cbn. by rewrite lookup_insert_eq.
Qed.

(** X2. When the source opens and the destination does not, the run ends
    after the diagnostic that names the destination: the store is the one
    it was given (the source is not read, nothing is created) and zlib is
    not called. *)
Theorem destination_failure_leaves_store (fs : FS) (inp outp : string)
    (c : bool) (lvl : Z) :
  is_Some (files fs !! inp) -> inp ∉ noread fs -> outp ∈ nowrite fs ->
  let r := processFile z fuel fs inp outp c lvl in
  fs_after r = fs
  /\ status r = OutputOpenError
  /\ printed r = [Cerr ("Error opening output file: " +:+ outp)]
  /\ calls r = [].
Proof.
  intros Hin Hr Hw r. subst r. unfold processFile.
  assert (can_open_in fs inp = true) as -> by (by apply can_open_in_true).
  assert (can_open_out fs outp = false) as -> by (by apply can_open_out_false).
  done.
Qed.

(** X3. Running a task a second time, when its destination is not its
    source, changes nothing: the second run makes the same calls, prints the
    same line, ends the same way and leaves the store as the first run
    left it. *)
Theorem rerun_changes_nothing (fs : FS) (inp outp : string) (c : bool) (lvl : Z) :
  inp <> outp ->
  let r := processFile z fuel fs inp outp c lvl in
  let r' := processFile z fuel (fs_after r) inp outp c lvl in
  fs_after r' = fs_after r
  /\ printed r' = printed r /\ status r' = status r /\ calls r' = calls r.
Proof.
  intros Hne r r'.
  destruct (processFile_bars z fuel fs inp outp c lvl) as [Hnr Hnw].
  cbv zeta in Hnr, Hnw. fold r in Hnr, Hnw.
  pose proof (processFile_other_files z fuel fs inp outp c lvl inp Hne) as Hsrc.
  fold r in Hsrc.
  destruct (processFile_agree fs (fs_after r) inp outp c lvl
              (eq_sym Hsrc) (eq_sym Hnr) (eq_sym Hnw))
    as (Hp & Hs & Hc & Hfs).
  cbv zeta in Hp, Hs, Hc, Hfs. fold r in Hp, Hs, Hc, Hfs. fold r' in Hp, Hs, Hc, Hfs.
  repeat split; try done.
  destruct Hfs as [[_ H] | (W & H1 & H2)]; [done |].
  rewrite H2, H1. apply set_file_twice.
Qed.

Lemma call_ret_transform (c eof : bool) (avail : bytes) (r : Z) :
  call_ret (transform_call c eof avail r) = Some r
  /\ compress_call (transform_call c eof avail r) = c.
Proof. by destruct c. Qed.

(** The calls of one drain loop: all of the task's direction, and a
    [Z_STREAM_ERROR] only as the last of them, which is then the loop's
    end. *)
Lemma drain_calls (dfuel : nat) (c eof : bool) (outsz : nat) (zs : zstate z)
    (avail : bytes) :
  let d := drain z dfuel c eof outsz zs avail in
  Forall (fun k => is_Some (call_ret k) /\ compress_call k = c) (lcalls d)
  /\ (lstatus d <> LoopError
      /\ Forall (fun k => call_ret k <> Some Z_STREAM_ERROR) (lcalls d)
      \/ lstatus d = LoopError
         /\ exists pre k,
              lcalls d = pre ++ [k]
              /\ Forall (fun k => call_ret k <> Some Z_STREAM_ERROR) pre
              /\ call_ret k = Some Z_STREAM_ERROR).
Proof.
  revert zs avail. induction dfuel as [| dfuel IH]; intros zs avail.
  { cbn. split; [constructor | left; split; [done | constructor]]. }
  cbn [drain]. cbv zeta.
  set (r := transform z c eof zs avail outsz).
  destruct (call_ret_transform c eof avail (ret r)) as [Hret Hdir].
  destruct (Z.eqb_spec (ret r) Z_STREAM_ERROR) as [E | E].
  - cbn [lcalls lstatus]. split.
    + repeat constructor; [by rewrite Hret | done].
    + right. split; [done |]. eexists [], _. split; [done |].
      split; [constructor | by rewrite Hret, E].
  - destruct (outsz - length (out r) =? 0).
    + destruct (IH (state_after r) (rest_in r)) as [Hall Hcase].
      cbv zeta in Hall, Hcase. cbn [lcalls lstatus]. split.
      * constructor; [| done]. split; [by rewrite Hret | done].
      * destruct Hcase as [[Hs Hclean] | (Hs & pre & k & Hk & Hpre & Hlast)].
        -- left. split; [done |]. constructor; [| done].
           rewrite Hret. congruence.
        -- right. split; [done |]. eexists (_ :: pre), k.
           rewrite Hk. split; [done |]. split; [| done].
           constructor; [| done]. rewrite Hret. congruence.
    + cbn [lcalls lstatus]. split.
      * repeat constructor; [by rewrite Hret | done].
      * left. split; [done |]. repeat constructor. rewrite Hret. congruence.
Qed.

Lemma chunk_loop_calls (n dfuel : nat) (c : bool) (insz outsz : nat)
    (inFile : ifstream) (zs : zstate z) :
  let k := chunk_loop z n dfuel c insz outsz inFile zs in
  Forall (fun k => is_Some (call_ret k) /\ compress_call k = c) (lcalls k)
  /\ (lstatus k <> LoopError
      /\ Forall (fun k => call_ret k <> Some Z_STREAM_ERROR) (lcalls k)
      \/ lstatus k = LoopError
         /\ exists pre e,
              lcalls k = pre ++ [e]
              /\ Forall (fun k => call_ret k <> Some Z_STREAM_ERROR) pre
              /\ call_ret e = Some Z_STREAM_ERROR).
Proof.
  revert inFile zs. induction n as [| n IH]; intros inFile zs.
  { cbn. split; [constructor | left; split; [done | constructor]]. }
  cbn [chunk_loop]. cbv zeta.
  destruct (ifstream_read inFile insz) as [chunk inFile'].
  destruct (length chunk =? 0).
  { cbn. split; [constructor | left; split; [done | constructor]]. }
  destruct (drain_calls dfuel c (eofbit inFile') outsz zs chunk) as [Hall Hcase].
  cbv zeta in Hall, Hcase.
  destruct (lstatus (drain z dfuel c (eofbit inFile') outsz zs chunk)) eqn:Hs;
    [| by rewrite Hs | by rewrite Hs].
  destruct (IH inFile' (lstate (drain z dfuel c (eofbit inFile') outsz zs chunk)))
    as [Hall' Hcase'].
  cbv zeta in Hall', Hcase'. cbn [lcalls lstatus].
  destruct Hcase as [[_ Hclean] | [? _]]; [| done].
  split; [by apply Forall_app |].
  destruct Hcase' as [[Hs' Hclean'] | (Hs' & pre & e & He & Hpre & Hlast)].
  - left. split; [done |]. by apply Forall_app.
  - right. split; [done |]. eexists (_ ++ pre), e.
    rewrite He, app_assoc. split; [done |]. split; [| done].
    by apply Forall_app.
Qed.

(** X4. In every run of [processFile], a call that comes back with
    [Z_STREAM_ERROR] is the last call made: the run ends as a stream error
    with the diagnostic in place of the line that reports success.  And a
    run that ends in any other way has seen no [Z_STREAM_ERROR]. *)
Theorem stream_error_ends_the_run (fs : FS) (inp outp : string) (c : bool)
    (lvl : Z) :
  let r := processFile z fuel fs inp outp c lvl in
  (status r = StreamError ->
     printed r = [Cerr "Error during compression/decompression"]
     /\ exists pre e,
          calls r = pre ++ [e]
          /\ call_ret e = Some Z_STREAM_ERROR
          /\ Forall (fun k => call_ret k <> Some Z_STREAM_ERROR) pre)
  /\ (status r <> StreamError ->
        Forall (fun k => call_ret k <> Some Z_STREAM_ERROR) (calls r)).
Proof.
  intros r. subst r. unfold processFile.
  destruct (can_open_in fs inp); cbn [negb];
    [| split; [done | intros _; constructor]].
  destruct (can_open_out fs outp); cbn [negb];
    [| split; [done | intros _; constructor]].
  cbv zeta.
  match goal with |- context [chunk_loop z ?a ?b ?c0 ?d ?e ?f ?g] =>
    destruct (chunk_loop_calls a b c0 d e f g) as [_ Hcase];
    cbv zeta in Hcase;
    destruct (lstatus (chunk_loop z a b c0 d e f g)) eqn:Hs
  end; cbn [status printed calls].
  - split; [done | intros _].
    destruct Hcase as [[_ Hclean] | [? _]]; [| done].
    constructor; [by destruct c |]. apply Forall_app. split; [done |].
    repeat constructor. by destruct c.
  - split; [intros _ | done]. split; [done |].
    destruct Hcase as [[? _] | (_ & pre & e & He & Hpre & Hlast)]; [done |].
    eexists (_ :: pre), e. rewrite He. split; [done |]. split; [done |].
    constructor; [by destruct c | done].
  - split; [done | intros _].
    destruct Hcase as [[_ Hclean] | [? _]]; [| done].
    constructor; [by destruct c | done].
Qed.

(** X5. A run makes calls of its own direction only, and it closes the
    zlib stream ([deflateEnd] / [inflateEnd]) exactly when it ends as
    processed, as the last call after the opening one: after a
    [Z_STREAM_ERROR] the stream is left unclosed. *)
Theorem stream_closed_iff_processed (fs : FS) (inp outp : string) (c : bool)
    (lvl : Z) :
  let r := processFile z fuel fs inp outp c lvl in
  Forall (fun k => compress_call k = c) (calls r)
  /\ (end_call c ∈ calls r <-> status r = Processed)
  /\ (status r = Processed ->
        exists mid, calls r = init_call c lvl :: mid ++ [end_call c]
                    /\ Forall (fun k => is_Some (call_ret k)) mid).
Proof.
  intros r. subst r. unfold processFile.
  destruct (can_open_in fs inp); cbn [negb].
  2:{ cbn. split; [constructor |]. split; [| done].
      split; [by intros ?%elem_of_nil | done]. }
  destruct (can_open_out fs outp); cbn [negb].
  2:{ cbn. split; [constructor |]. split; [| done].
      split; [by intros ?%elem_of_nil | done]. }
  cbv zeta.
  match goal with |- context [chunk_loop z ?a ?b ?c0 ?d ?e ?f ?g] =>
    destruct (chunk_loop_calls a b c0 d e f g) as [Hall _];
    cbv zeta in Hall;
    destruct (lstatus (chunk_loop z a b c0 d e f g)) eqn:Hs
  end; cbn [status calls].
  - split; [| split].
    + constructor; [by destruct c |]. apply Forall_app. split.
      * eapply Forall_impl; [exact Hall |]. by intros k [_ ?].
      * repeat constructor. by destruct c.
    + split; [done | intros _].
      apply elem_of_cons. right. apply elem_of_app. right. apply list_elem_of_here.
    + intros _. eexists. split; [done |].
      eapply Forall_impl; [exact Hall |]. by intros k [? _].
  - split; [| split; [| done]].
    + constructor; [by destruct c |].
      eapply Forall_impl; [exact Hall |]. by intros k [_ ?].
    + split; [| done]. intros [E | Hin]%elem_of_cons; [by destruct c |].
      rewrite Forall_forall in Hall. destruct (Hall _ Hin) as [[? Hr] _].
      by destruct c.
  - split; [| split; [| done]].
    + constructor; [by destruct c |].
      eapply Forall_impl; [exact Hall |]. by intros k [_ ?].
    + split; [| done]. intros [E | Hin]%elem_of_cons; [by destruct c |].
      rewrite Forall_forall in Hall. destruct (Hall _ Hin) as [[? Hr] _].
      by destruct c.
Qed.

End FileFacts.


(** * Further properties of [processFiles] *)

Lemma elem_of_omap_lookup {A} (l : list A) (ks : list nat) (x : A) :
  x ∈ omap (fun k => l !! k) ks -> x ∈ l.
Proof.
  intros (k & _ & Hk)%list_elem_of_omap. by eapply list_elem_of_lookup_2.
Qed.

Section Frame.
Context (z : zlib) (fuel : nat) (tasks : list CompressionTask).

Lemma executed_tasks_in (p : Pool) (t : CompressionTask) :
  t ∈ executed_tasks tasks p -> t ∈ tasks.
Proof.
  unfold executed_tasks. rewrite omap_lookup_snd. apply elem_of_omap_lookup.
Qed.

(** Tasks run one after the other leave alone every file that is the
    destination of none of them, and the bars on all paths. *)
Lemma run_sequential_frame (fs : FS) (ts : list CompressionTask) (path : string) :
  (forall t, t ∈ ts -> outputPath t <> path) ->
  files (run_sequential z fuel fs ts).1 !! path = files fs !! path.
Proof.
  revert fs. induction ts as [| t ts IH]; intros fs Hts; [done |].
  rewrite run_sequential_cons. cbn [fst].
  rewrite IH by (intros u Hu; apply Hts; by right).
  apply processFile_other_files. intros E. apply (Hts t); [by left | done].
Qed.

Lemma run_sequential_bars (fs : FS) (ts : list CompressionTask) :
  noread (run_sequential z fuel fs ts).1 = noread fs
  /\ nowrite (run_sequential z fuel fs ts).1 = nowrite fs.
Proof.
  revert fs. induction ts as [| t ts IH]; intros fs; [done |].
  rewrite run_sequential_cons. cbn [fst].
  destruct (IH (fs_after (processFile z fuel fs (inputPath t) (outputPath t)
                            (compress t) (level t)))) as [-> ->].
  apply processFile_bars.
Qed.

End Frame.

(** X6. Whatever the interleaving and the number of workers, at every point
    of a run of [processFiles] a file that is the destination of none of the
    tasks holds what it held at the start (or is as absent), and the bars on
    paths are as they were: the pool touches the destinations of its tasks
    and nothing else. *)
Theorem pool_touches_destinations_only (z : zlib) (fuel : nat)
    (tasks : list CompressionTask) (numThreads : Z) (sched : list nat)
    (fs : FS) (path : string) :
  (forall t, t ∈ tasks -> outputPath t <> path) ->
  let p := processFiles z fuel tasks numThreads sched fs in
  files (store p) !! path = files fs !! path
  /\ noread (store p) = noread fs
  /\ nowrite (store p) = nowrite fs.
Proof.
  intros Hpath p.
  pose proof (pool_replay z fuel tasks numThreads sched fs) as Hrep.
  cbv zeta in Hrep. fold p in Hrep.
  assert (store p = (run_sequential z fuel fs (executed_tasks tasks p)).1) as ->
    by (by rewrite <- Hrep).
  split; [| apply run_sequential_bars].
  apply run_sequential_frame. intros t Ht. apply Hpath.
  by eapply executed_tasks_in.
Qed.

Section Order.
Context (z : zlib) (fuel : nat) (tasks : list CompressionTask).

(** A thread that has returned stays returned. *)
Lemma returned_stays (i j : nat) (p : Pool) :
  threads p !! i = Some Returned ->
  threads (worker_step z fuel tasks j p) !! i = Some Returned.
Proof.
  intros Hi. unfold worker_step.
  destruct (decide (j = i)) as [-> | Hne]; [by rewrite Hi |].
  destruct (threads p !! j) as [[| k |] |]; cbn zeta; try done.
  - destruct (length tasks <=? currentTask p); cbn [threads];
      by rewrite list_lookup_insert_ne.
  - destruct (tasks !! k); [| done]. cbn [threads].
    by rewrite list_lookup_insert_ne.
Qed.

Lemma returned_stays_run (i : nat) (sched : list nat) (p : Pool) :
  threads p !! i = Some Returned ->
  threads (run_schedule z fuel tasks sched p) !! i = Some Returned.
Proof.
  unfold run_schedule. revert p.
  induction sched as [| j s IH]; intros p Hi; [done |].
  cbn. apply IH. by apply returned_stays.
Qed.

(** The number of indices claimed is the cursor; so many have been run, or
    are held. *)
Lemma inv_counts (p : Pool) :
  pool_inv tasks p ->
  length (executed p) + length (running_from 0 (threads p)) = currentTask p.
Proof.
  intros [_ Hcl Hex _].
  rewrite <- length_app, <- Hex, <- (length_fmap snd), Hcl. apply length_seq.
Qed.

(** With one thread, the indices are run in the order of the list. *)
Lemma single_thread_order (i : nat) (p : Pool) :
  pool_inv tasks p -> length (threads p) = 1 ->
  (executed p).*2 = seq 0 (length (executed p)) ->
  let q := worker_step z fuel tasks i p in
  (executed q).*2 = seq 0 (length (executed q)).
Proof.
  intros Hinv Hone Hord. cbv zeta. unfold worker_step.
  destruct (threads p !! i) as [[| k |] |] eqn:Hi; cbn zeta; try done.
  - by destruct (length tasks <=? currentTask p).
  - destruct (tasks !! k) as [t |]; [| done]. cbn [executed].
    destruct (inv_running_lt tasks p i k Hinv Hi) as [Hlt Hnew].
    pose proof (inv_counts p Hinv) as Hcount.
    destruct (threads p) as [| w [| w' ws]]; try done.
    destruct i as [| i]; [| done]. cbn in Hi. injection Hi as ->.
    cbn in Hcount.
    assert (k = length (executed p)) as ->.
    { rewrite Hord, elem_of_seq in Hnew. lia. }
    by rewrite fmap_app, length_app, Nat.add_1_r, seq_S, <- Hord.
Qed.

Lemma single_thread_order_run (sched : list nat) (p : Pool) :
  pool_inv tasks p -> length (threads p) = 1 ->
  (executed p).*2 = seq 0 (length (executed p)) ->
  let q := run_schedule z fuel tasks sched p in
  (executed q).*2 = seq 0 (length (executed q)).
Proof.
  cbv zeta. unfold run_schedule. revert p.
  induction sched as [| i s IH]; intros p Hinv Hone Hord; [done |].
  cbn. apply IH.
  - by apply worker_step_inv.
  - by rewrite worker_step_threads_length.
  - by apply single_thread_order.
Qed.

(** When every thread has returned, what has been run is what has been
    claimed: every index. *)
Lemma joined_all_run (p : Pool) :
  pool_inv tasks p -> joined p = true -> threads p <> [] ->
  currentTask p = length tasks /\ (executed p).*2 ≡ₚ seq 0 (length tasks).
Proof.
  intros [Hc Hcl Hex Hret] Hj Hne. unfold joined in Hj.
  rewrite (running_from_joined _ 0 Hj), app_nil_r in Hex.
  assert (currentTask p = length tasks) as Hall.
  { apply Hret. destruct (threads p) as [| w ws]; [done |].
    cbn in Hj. apply andb_true_iff in Hj as [Hw _].
    destruct w; try done. apply list_elem_of_here. }
  split; [done |]. by rewrite <- Hall, <- Hcl, Hex.
Qed.

End Order.

(** X7. With one worker the tasks are run in the order of the list: at
    every point of the run the indices run so far are [0, 1, ...] in this
    order, and the store and the console are those of running that many
    first tasks one after the other; when the thread has returned, all of
    them. *)
Theorem single_worker_runs_in_order (z : zlib) (fuel : nat)
    (tasks : list CompressionTask) (sched : list nat) (fs : FS) :
  let p := processFiles z fuel tasks 1 sched fs in
  let n := length (executed p) in
  (executed p).*2 = seq 0 n
  /\ n <= length tasks
  /\ (store p, console p) = run_sequential z fuel fs (take n tasks)
  /\ (joined p = true ->
      (store p, console p) = run_sequential z fuel fs tasks).
Proof.
  intros p n.
  assert (pool_inv tasks p) as Hinv by apply run_schedule_inv, spawn_inv.
  assert (length (threads p) = 1) as Hone.
  { unfold p, processFiles. by rewrite run_schedule_threads_length. }
  assert ((executed p).*2 = seq 0 n) as Hord.
  { apply single_thread_order_run; [apply spawn_inv | done | done]. }
  assert (n <= length tasks) as Hn.
  { pose proof (inv_counts tasks p Hinv). pose proof (inv_cursor _ _ Hinv).
    unfold n. lia. }
  assert ((store p, console p) = run_sequential z fuel fs (take n tasks)) as Hrep.
  { pose proof (pool_replay z fuel tasks 1 sched fs) as H. cbv zeta in H.
    fold p in H. rewrite H. unfold executed_tasks.
    by rewrite omap_lookup_snd, Hord, omap_lookup_seq. }
  split; [done |]. split; [done |]. split; [done |].
  intros Hj.
  destruct (joined_all_run tasks p Hinv Hj) as [_ Hperm].
  { intros E. by rewrite E in Hone. }
  apply Permutation_length in Hperm.
  rewrite length_fmap, length_seq in Hperm. fold n in Hperm.
  rewrite Hrep, Hperm. by rewrite firstn_all.
Qed.

(** X8. An empty task list: whatever the number of workers and the
    interleaving, nothing is claimed or run, the store is left as it was and
    nothing is printed; and every thread that has been let move has
    returned, at its first look at the list. *)
Theorem empty_batch_does_nothing (z : zlib) (fuel : nat) (numThreads : Z)
    (sched : list nat) (fs : FS) :
  let p := processFiles z fuel [] numThreads sched fs in
  store p = fs /\ console p = []
  /\ currentTask p = 0 /\ claimed p = [] /\ executed p = []
  /\ (forall i, i ∈ sched -> (Z.of_nat i < numThreads)%Z ->
        threads p !! i = Some Returned).
Proof.
  intros p.
  assert (pool_inv [] p) as Hinv by apply run_schedule_inv, spawn_inv.
  pose proof (inv_cursor _ _ Hinv) as Hc. cbn in Hc.
  pose proof (inv_counts [] p Hinv) as Hcount.
  assert (executed p = []) as Hex by (apply nil_length_inv; lia).
  assert (claimed p = []) as Hcl.
  { apply (fmap_nil_inv snd). rewrite (inv_claimed _ _ Hinv).
    by replace (currentTask p) with 0 by lia. }
  pose proof (pool_replay z fuel [] numThreads sched fs) as Hrep.
  cbv zeta in Hrep. fold p in Hrep.
  unfold executed_tasks in Hrep. rewrite Hex in Hrep. cbn in Hrep.
  injection Hrep as Hs Hco.
  split; [done |]. split; [done |]. split; [lia |]. split; [done |].
  split; [done |].
  clear Hs Hco Hex Hcl Hcount Hc Hinv. subst p. unfold processFiles.
  assert (forall q, pool_inv [] q -> forall i, i ∈ sched -> i < length (threads q) ->
    threads (run_schedule z fuel [] sched q) !! i = Some Returned) as Hgen.
  { induction sched as [| j s IH]; intros q Hq i Hi Hlen.
    - by apply elem_of_nil in Hi.
    - apply elem_of_cons in Hi as [-> | Hi].
      + change (run_schedule z fuel [] (j :: s) q)
          with (run_schedule z fuel [] s (worker_step z fuel [] j q)).
        apply returned_stays_run.
        destruct (lookup_lt_is_Some_2 _ _ Hlen) as [w Hw].
        unfold worker_step. rewrite Hw.
        destruct w as [| k |]; [| | done].
        * cbn. by apply list_lookup_insert_eq.
        * destruct (inv_running_lt [] q j k Hq Hw) as [Hk _].
          pose proof (inv_cursor _ _ Hq) as Hc. cbn in Hc. lia.
      + change (run_schedule z fuel [] (j :: s) q)
          with (run_schedule z fuel [] s (worker_step z fuel [] j q)).
        apply IH; [by apply worker_step_inv | done |].
        by rewrite worker_step_threads_length. }
  intros i Hi Hlt. apply Hgen; [apply spawn_inv | done |].
  cbn. rewrite length_replicate. lia.
Qed.

(** ** Tasks that do not meet *)

Lemma independent_sym (t u : CompressionTask) : independent t u -> independent u t.
Proof. intros (H1 & H2 & H3). repeat split; done. Qed.

Lemma pairwise_independent_perm (ts ts' : list CompressionTask) :
  ts ≡ₚ ts' -> pairwise_independent ts -> pairwise_independent ts'.
Proof.
  induction 1 as [| x l l' Hperm IH | x y l | l l' l'' _ IH1 _ IH2]; cbn.
  - done.
  - intros [Hx Hl]. split; [by rewrite <- Hperm | by apply IH].
  - intros [[Hyx Hy]%Forall_cons [Hx Hl]]. split; [| done].
    constructor; [by apply independent_sym | done].
  - intros H. by apply IH2, IH1.
Qed.

Section Independent.
Context (z : zlib) (fuel : nat).

Lemma run_sequential_app (fs : FS) (ts us : list CompressionTask) :
  run_sequential z fuel fs (ts ++ us) =
    ((run_sequential z fuel (run_sequential z fuel fs ts).1 us).1,
     (run_sequential z fuel fs ts).2
       ++ (run_sequential z fuel (run_sequential z fuel fs ts).1 us).2).
Proof.
  unfold run_sequential at 1. rewrite foldl_app.
  fold (run_sequential z fuel fs ts).
  destruct (run_sequential z fuel fs ts) as [fs1 lines]. cbn [fst snd].
  apply run_from_console.
Qed.

(** Two tasks that do not meet can be run in either order: the store is
    the same, and each prints what it prints when run alone. *)
Lemma independent_commute (fs : FS) (t u : CompressionTask) :
  independent t u ->
  let rt := processFile z fuel fs (inputPath t) (outputPath t) (compress t) (level t) in
  let ru := processFile z fuel fs (inputPath u) (outputPath u) (compress u) (level u) in
  exists fs2,
    run_sequential z fuel fs [t; u] = (fs2, printed rt ++ printed ru)
    /\ run_sequential z fuel fs [u; t] = (fs2, printed ru ++ printed rt).
Proof.
  intros (Htu & Hut & Hoo) rt ru.
  rewrite !run_sequential_cons. cbn [fst snd]. fold rt ru.
  unfold run_sequential. cbn [foldl fst snd]. rewrite !app_nil_r.
  destruct (processFile_bars z fuel fs (inputPath t) (outputPath t) (compress t)
              (level t)) as [Hnrt Hnwt].
  destruct (processFile_bars z fuel fs (inputPath u) (outputPath u) (compress u)
              (level u)) as [Hnru Hnwu].
  cbv zeta in Hnrt, Hnwt, Hnru, Hnwu. fold rt in Hnrt, Hnwt. fold ru in Hnru, Hnwu.
  pose proof (processFile_other_files z fuel fs (inputPath t) (outputPath t)
                (compress t) (level t) (inputPath u) (not_eq_sym Htu)) as Hsrc_u.
  pose proof (processFile_other_files z fuel fs (inputPath u) (outputPath u)
                (compress u) (level u) (inputPath t) (not_eq_sym Hut)) as Hsrc_t.
  fold rt in Hsrc_u. fold ru in Hsrc_t.
  destruct (processFile_agree z fuel fs (fs_after rt) (inputPath u) (outputPath u)
              (compress u) (level u) (eq_sym Hsrc_u) (eq_sym Hnrt) (eq_sym Hnwt))
    as (Hpu & _ & _ & Hfu).
  destruct (processFile_agree z fuel fs (fs_after ru) (inputPath t) (outputPath t)
              (compress t) (level t) (eq_sym Hsrc_t) (eq_sym Hnru) (eq_sym Hnwu))
    as (Hpt & _ & _ & Hft).
  cbv zeta in Hpu, Hfu, Hpt, Hft. fold rt ru in Hpu, Hfu, Hpt, Hft.
  rewrite <- Hpu, <- Hpt.
  eexists. split; [reflexivity |]. f_equal.
  destruct Hfu as [[Hu1 Hu2] | (Wu & Hu1 & Hu2)],
           Hft as [[Ht1 Ht2] | (Wt & Ht1 & Ht2)].
  - by rewrite Hu2, Ht2, Hu1, Ht1.
  - by rewrite Hu2, Ht2, Hu1.
  - by rewrite Hu2, Ht2, Ht1.
  - rewrite Hu2, Ht2, Hu1, Ht1. unfold set_file. cbn [files noread nowrite].
    f_equal. by apply insert_insert_ne.
Qed.

(** Tasks that pairwise do not meet can be run in any order. *)
Lemma run_sequential_perm (ts ts' : list CompressionTask) :
  ts ≡ₚ ts' -> pairwise_independent ts ->
  forall fs,
    (run_sequential z fuel fs ts).1 = (run_sequential z fuel fs ts').1
    /\ (run_sequential z fuel fs ts).2 ≡ₚ (run_sequential z fuel fs ts').2.
Proof.
  induction 1 as [| x l l' Hperm IH | x y l | l l' l'' Hp1 IH1 Hp2 IH2];
    intros Hind fs.
  - done.
  - destruct Hind as [_ Hl]. rewrite !run_sequential_cons. cbn [fst snd].
    destruct (IH Hl (fs_after (processFile z fuel fs (inputPath x) (outputPath x)
                                 (compress x) (level x)))) as [H1 H2].
    split; [done | by rewrite H2].
  - destruct Hind as [[Hyx _]%Forall_cons _].
    destruct (independent_commute fs y x Hyx) as (fs2 & Hyx2 & Hxy2).
    cbv zeta in Hyx2, Hxy2.
    change (y :: x :: l) with ([y; x] ++ l).
    change (x :: y :: l) with ([x; y] ++ l).
    rewrite !run_sequential_app, Hyx2, Hxy2. cbn [fst snd].
    split; [done |]. apply Permutation_app_tail, Permutation_app_comm.
  - destruct (IH1 Hind fs) as [H1 H2].
    destruct (IH2 (pairwise_independent_perm _ _ Hp1 Hind) fs) as [H3 H4].
    split; [congruence | by rewrite H2].
Qed.

End Independent.

(** X9. When no task of the batch writes what another reads or writes, the
    outcome of [processFiles] does not depend on the number of workers or on
    the interleaving: once every thread has returned, the store is the one
    left by running the tasks one after the other in the order of the list,
    and the console holds the same lines, in some order. *)
Theorem independent_tasks_any_schedule (z : zlib) (fuel : nat)
    (tasks : list CompressionTask) (numThreads : Z) (sched : list nat) (fs : FS) :
  pairwise_independent tasks ->
  (1 <= numThreads)%Z ->
  let p := processFiles z fuel tasks numThreads sched fs in
  joined p = true ->
  store p = (run_sequential z fuel fs tasks).1
  /\ console p ≡ₚ (run_sequential z fuel fs tasks).2.
Proof.
  intros Hind HN p Hj.
  assert (pool_inv tasks p) as Hinv by apply run_schedule_inv, spawn_inv.
  assert (threads p <> []) as Hne.
  { intros E.
    assert (length (threads p) = Z.to_nat numThreads) as Hlen.
    { unfold p, processFiles. rewrite run_schedule_threads_length.
      cbn. apply length_replicate. }
    rewrite E in Hlen. cbn in Hlen. lia. }
  destruct (joined_all_run tasks p Hinv Hj Hne) as [_ Hperm].
  assert (tasks ≡ₚ executed_tasks tasks p) as Htasks.
  { unfold executed_tasks. rewrite omap_lookup_snd, Hperm.
    by rewrite omap_lookup_seq, firstn_all. }
  pose proof (pool_replay z fuel tasks numThreads sched fs) as Hrep.
  cbv zeta in Hrep. fold p in Hrep.
  destruct (run_sequential_perm z fuel _ _ Htasks Hind fs) as [H1 H2].
  rewrite H1, H2, <- Hrep. done.
Qed.

(** ** The length of a run *)

Lemma running_from_claiming (j n : nat) :
  running_from j (replicate n Claiming) = [].
Proof. revert j. induction n as [| n IH]; intros j; [done |]. cbn. apply IH. Qed.

Lemma unreturned_claiming (n : nat) : unreturned (replicate n Claiming) = n.
Proof. induction n as [| n IH]; [done |]. cbn. by rewrite IH. Qed.

Lemma unreturned_joined (ws : list worker) :
  unreturned ws = 0 <-> forallb has_returned ws = true.
Proof.
  induction ws as [| w ws IH]; [done |].
  destruct w; cbn; rewrite ?IH; split; done || lia.
Qed.

Section Steps.
Context (z : zlib) (fuel : nat) (tasks : list CompressionTask).

(** A step of a live thread is one of the steps left. *)
Lemma worker_step_counts (i : nat) (p : Pool) :
  pool_inv tasks p -> live p i = true ->
  S (steps_left tasks (worker_step z fuel tasks i p)) = steps_left tasks p.
Proof.
  intros Hinv Hlive. pose proof Hinv as [Hc Hcl Hex Hret].
  unfold live in Hlive. destruct (threads p !! i) as [w |] eqn:Hi; [| done].
  unfold worker_step, steps_left. rewrite Hi.
  destruct w as [| k |]; [| | done].
  - destruct (Nat.leb_spec (length tasks) (currentTask p)) as [H | H]; cbn.
    + rewrite running_from_return by done.
      rewrite <- (unreturned_return (threads p) i Hi). lia.
    + rewrite (running_from_claim _ i 0 _ Hi).
      rewrite (unreturned_keep _ i Claiming) by done. cbn. lia.
  - destruct (inv_running_lt tasks p i k Hinv Hi) as [Hk _].
    destruct (lookup_lt_is_Some_2 tasks k ltac:(lia)) as [t Ht].
    rewrite Ht. cbn.
    rewrite (running_from_run _ i 0 k Hi).
    rewrite (unreturned_keep _ i (Running k)) by done. cbn. lia.
Qed.

Lemma run_schedule_counts (sched : list nat) (p : Pool) :
  pool_inv tasks p -> all_live z fuel tasks sched p = true ->
  length sched + steps_left tasks (run_schedule z fuel tasks sched p)
    = steps_left tasks p.
Proof.
  unfold run_schedule. revert p.
  induction sched as [| i s IH]; intros p Hinv Hlive; [done |].
  cbn [all_live] in Hlive. apply andb_true_iff in Hlive as [Hi Hs].
  pose proof (worker_step_counts i p Hinv Hi) as H1.
  pose proof (IH (worker_step z fuel tasks i p)
                (worker_step_inv z fuel tasks i p Hinv) Hs) as H2.
  cbn [foldl length]. lia.
Qed.

(** No step is left exactly when every thread has returned. *)
Lemma steps_left_joined (p : Pool) :
  pool_inv tasks p -> threads p <> [] ->
  joined p = true <-> steps_left tasks p = 0.
Proof.
  intros Hinv Hne. unfold steps_left. split.
  - intros Hj. destruct (joined_all_run tasks p Hinv Hj Hne) as [-> _].
    unfold joined in Hj. rewrite (running_from_joined _ 0 Hj).
    apply unreturned_joined in Hj. rewrite Hj. cbn. lia.
  - intros H. unfold joined. apply unreturned_joined. lia.
Qed.

End Steps.

(** X10. With at least one worker, a run in which every step is the step of
    a thread that has not yet returned has at most 2M + N steps for M tasks
    and N workers (a claim and a call for each task, a last look at the list
    for each worker), and all threads have returned exactly when it has that
    many: no interleaving makes the pool return early or keeps it going. *)
Theorem run_has_2M_plus_N_steps (z : zlib) (fuel : nat)
    (tasks : list CompressionTask) (numThreads : Z) (sched : list nat) (fs : FS) :
  (1 <= numThreads)%Z ->
  all_live z fuel tasks sched (spawn numThreads fs) = true ->
  let p := processFiles z fuel tasks numThreads sched fs in
  length sched <= 2 * length tasks + Z.to_nat numThreads
  /\ (joined p = true <->
      length sched = 2 * length tasks + Z.to_nat numThreads).
Proof.
  intros HN Hlive p.
  pose proof (run_schedule_counts z fuel tasks sched (spawn numThreads fs)
                (spawn_inv tasks numThreads fs) Hlive) as Hcount.
  fold (processFiles z fuel tasks numThreads sched fs) in Hcount. fold p in Hcount.
  assert (steps_left tasks (spawn numThreads fs)
          = 2 * length tasks + Z.to_nat numThreads) as Hstart.
  { unfold steps_left, spawn. cbn [currentTask threads].
    rewrite running_from_claiming, unreturned_claiming. cbn [length]. lia. }
  assert (pool_inv tasks p) as Hinv by apply run_schedule_inv, spawn_inv.
  assert (threads p <> []) as Hne.
  { intros E.
    assert (length (threads p) = Z.to_nat numThreads) as Hlen.
    { unfold p, processFiles. rewrite run_schedule_threads_length.
      cbn. apply length_replicate. }
    rewrite E in Hlen. cbn in Hlen. lia. }
  split; [lia |].
  rewrite (steps_left_joined tasks p Hinv Hne). lia.
Qed.

(** * The benchmark *)

Lemma length_mjoin_replicate {A} (n : nat) (l : list A) :
  length (mjoin (replicate n l)) = n * length l.
Proof.
  induction n as [| n IH]; [done |]. cbn [replicate mjoin list_join].
  rewrite length_app. cbn [Nat.mul]. by f_equal.
Qed.

Section Missing.
Context (z : zlib) (fuel : nat).

(** Tasks whose sources do not exist, run one after the other: the store
    stays as it is, each prints its diagnostic. *)
Lemma run_sequential_missing (fs : FS) (ts : list CompressionTask) :
  (forall t, t ∈ ts -> files fs !! inputPath t = None) ->
  run_sequential z fuel fs ts =
    (fs, (fun t => Cerr ("Error opening input file: " +:+ inputPath t)) <$> ts).
Proof.
  induction ts as [| t ts IH]; intros Hts; [done |].
  rewrite run_sequential_cons.
  assert (processFile z fuel fs (inputPath t) (outputPath t) (compress t) (level t)
          = {| fs_after := fs;
               printed := [Cerr ("Error opening input file: " +:+ inputPath t)];
               status := InputOpenError; calls := [] |}) as ->.
  { unfold processFile.
    assert (can_open_in fs (inputPath t) = false) as ->; [| done].
    apply can_open_in_false. left. apply Hts. by left. }
  cbn [fs_after printed]. rewrite IH by (intros u Hu; apply Hts; by right).
  done.
Qed.

End Missing.

Lemma benchmark_names (i : Z) :
  (0 <= i < 4)%Z ->
  Benchmark.testFile +:+ Benchmark.to_string i <> Benchmark.testFile
  /\ Benchmark.testFile +:+ Benchmark.to_string i <> Benchmark.compressedFile.
Proof.
  intros Hi.
  assert (i = 0 \/ i = 1 \/ i = 2 \/ i = 3)%Z as [-> | [-> | [-> | ->]]] by lia;
    by vm_compute.
Qed.

Lemma benchmark_multi_sources (t : CompressionTask) :
  t ∈ Benchmark.multi_tasks ->
  exists i, (0 <= i < 4)%Z
            /\ inputPath t = Benchmark.testFile +:+ Benchmark.to_string i.
Proof.
  unfold Benchmark.multi_tasks.
  intros (i & -> & Hi)%list_elem_of_fmap. exists i. split; [| done].
  apply elem_of_seqZ in Hi. lia.
Qed.

(** X11. The benchmark of [main] runs its four-thread comparison on four
    tasks that read [large_test_file.bin0] to [large_test_file.bin3], files
    that the benchmark does not write.  When they do not exist beforehand,
    none of the four tasks opens its source: whatever the interleavings, the
    four-thread run leaves the store as the one-thread run left it, and once
    its threads have returned its console holds the four diagnostics and
    nothing else. *)
Theorem benchmark_multi_opens_nothing (z : zlib) (fuel : nat)
    (sched1 sched2 : list nat) (fs : FS) :
  (forall i, (0 <= i < 4)%Z ->
     files fs !! (Benchmark.testFile +:+ Benchmark.to_string i) = None) ->
  let p1 := (Benchmark.run z fuel sched1 sched2 fs).1 in
  let p2 := (Benchmark.run z fuel sched1 sched2 fs).2 in
  store p2 = store p1
  /\ (joined p2 = true ->
      console p2 ≡ₚ
        [Cerr "Error opening input file: large_test_file.bin0";
         Cerr "Error opening input file: large_test_file.bin1";
         Cerr "Error opening input file: large_test_file.bin2";
         Cerr "Error opening input file: large_test_file.bin3"]).
Proof.
  intros Hmiss p1 p2. unfold Benchmark.run in p1, p2. cbn [fst snd] in p1, p2.
  fold p1 in p2.
  assert (forall t, t ∈ Benchmark.multi_tasks ->
            files (store p1) !! inputPath t = None) as Hgone.
  { intros t (i & Hi & ->)%benchmark_multi_sources.
    destruct (benchmark_names i Hi) as [Hn1 Hn2].
    pose proof (pool_replay z fuel Benchmark.single_tasks 1 sched1
                  (Benchmark.create_test_file fs)) as Hrep.
    cbv zeta in Hrep. fold p1 in Hrep.
    assert (store p1 = (run_sequential z fuel (Benchmark.create_test_file fs)
                          (executed_tasks Benchmark.single_tasks p1)).1) as ->
      by (by rewrite <- Hrep).
    rewrite run_sequential_frame.
    - unfold Benchmark.create_test_file.
      destruct (bool_decide _); [by apply Hmiss |].
      destruct (can_open_out fs Benchmark.testFile); [| by apply Hmiss].
      unfold set_file. cbn [files]. rewrite lookup_insert_ne by done.
      by apply Hmiss.
    - intros u Hu%executed_tasks_in.
      apply list_elem_of_singleton in Hu as ->. cbn [outputPath]. done. }
  pose proof (pool_replay z fuel Benchmark.multi_tasks 4 sched2 (store p1)) as Hrep.
  cbv zeta in Hrep. fold p2 in Hrep.
  rewrite run_sequential_missing in Hrep
    by (intros t Ht%executed_tasks_in; by apply Hgone).
  injection Hrep as Hs Hc. split; [done |].
  intros Hj. rewrite Hc.
  assert (pool_inv Benchmark.multi_tasks p2) as Hinv
    by apply run_schedule_inv, spawn_inv.
  assert (threads p2 <> []) as Hne.
  { intros E.
    assert (length (threads p2) = 4) as Hlen.
    { unfold p2, processFiles. by rewrite run_schedule_threads_length. }
    by rewrite E in Hlen. }
  destruct (joined_all_run _ p2 Hinv Hj Hne) as [_ Hperm].
  unfold executed_tasks. rewrite omap_lookup_snd, Hperm. reflexivity.
Qed.

(** X12. When the benchmark writes its test file, it writes 100 full
    buffers.  Its one-thread task compresses that file with level 0, and in
    that call of [processFile] no call of [deflate] carries [Z_FINISH]: the
    benchmark's own compressed file is never finished. *)
Theorem benchmark_file_never_finished (z : zlib) (fuel : nat) (fs : FS) :
  files fs !! Benchmark.testFile = None ->
  Benchmark.testFile ∉ nowrite fs -> Benchmark.testFile ∉ noread fs ->
  Benchmark.compressedFile ∉ nowrite fs ->
  let fs1 := Benchmark.create_test_file fs in
  files fs1 !! Benchmark.testFile = Some Benchmark.test_data
  /\ length Benchmark.test_data = 100 * BUFFER_SIZE
  /\ forall t, t ∈ Benchmark.single_tasks ->
       let r := processFile z (S fuel) fs1 (inputPath t) (outputPath t)
                  (compress t) (level t) in
       level t = 0%Z
       /\ Forall (fun c => signals_finish c = false) (calls r)
       /\ exists e rest,
            calls r = CdeflateInit 0 :: Cdeflate BUFFER_SIZE Z_NO_FLUSH e :: rest.
Proof.
  intros Hnone Hw Hr Hwc fs1.
  assert (fs1 = set_file fs Benchmark.testFile Benchmark.test_data) as Hfs1.
  { unfold fs1, Benchmark.create_test_file.
    rewrite bool_decide_eq_false_2 by (rewrite Hnone; by intros [? ?]).
    assert (can_open_out fs Benchmark.testFile = true) as ->
      by (by apply can_open_out_true).
    done. }
  assert (files fs1 !! Benchmark.testFile = Some Benchmark.test_data) as Hin.
  { rewrite Hfs1. unfold set_file. cbn [files]. apply lookup_insert_eq. }
  assert (length Benchmark.test_data = 100 * BUFFER_SIZE) as Hlen.
  { unfold Benchmark.test_data. rewrite length_mjoin_replicate.
    by rewrite length_replicate. }
  split; [done |]. split; [done |].
  intros t Ht. apply list_elem_of_singleton in Ht as ->.
  cbn [inputPath outputPath compress level]. cbv zeta. split; [done |].
  rewrite (processFile_open z _ fs1 _ _ true 0 Benchmark.test_data Hin);
    [| by rewrite Hfs1 | by rewrite Hfs1].
  cbv zeta. rewrite decide_False by done.
  pose proof (chunk_loop_on_multiple z (S fuel) (S fuel) true BUFFER_SIZE
                BUFFER_SIZE 100 Benchmark.test_data (deflateInit z 0)
                BUFFER_SIZE_pos Hlen) as Hall.
  assert (exists e rest,
    lcalls (chunk_loop z (S fuel) (S fuel) true BUFFER_SIZE BUFFER_SIZE
              {| unread := Benchmark.test_data; eofbit := false |}
              (deflateInit z 0)) =
    Cdeflate BUFFER_SIZE Z_NO_FLUSH e :: rest) as (e & rest & Hfirst).
  { pose proof BUFFER_SIZE_pos.
    cbn [chunk_loop]. rewrite read_full by lia.
    assert (length (take BUFFER_SIZE Benchmark.test_data) = BUFFER_SIZE) as Hc.
    { rewrite length_take. lia. }
    destruct (Nat.eqb_spec (length (take BUFFER_SIZE Benchmark.test_data)) 0)
      as [E | _]; [lia |].
    cbn [eofbit].
    destruct (drain_first_call z fuel true false BUFFER_SIZE (deflateInit z 0)
                (take BUFFER_SIZE Benchmark.test_data)) as [rest Hd].
    cbn [transform_call] in Hd. rewrite Hc in Hd.
    destruct (lstatus (drain z (S fuel) true false BUFFER_SIZE _ _));
      cbn [lcalls]; rewrite Hd; eauto. }
  set (k := chunk_loop z (S fuel) (S fuel) true BUFFER_SIZE BUFFER_SIZE
              {| unread := Benchmark.test_data; eofbit := false |}
              (deflateInit z 0)) in *.
  clearbody k. clear Hin Hlen Hfs1.
  destruct (lstatus k); cbn [calls init_call end_call]; rewrite Hfirst in *;
    (split; [| eauto]).
  - constructor; [done |]. apply Forall_app. split; [done |]. by repeat constructor.
  - by constructor.
  - by constructor.
Qed.

(** * The task lists of [main] *)

Lemma string_length_app (a b : string) :
  String.length (a +:+ b) = String.length a + String.length b.
Proof. induction a as [| c a IH]; [done |]. simpl. f_equal. exact IH. Qed.

Lemma has_slash_app (a b : string) :
  has_slash (a +:+ b) = has_slash a || has_slash b.
Proof.
  induction a as [| c a IH]; [done |]. simpl.
  rewrite <- orb_assoc. f_equal. exact IH.
Qed.

Lemma string_app_nil (x : string) : "" +:+ x = x.
Proof. reflexivity. Qed.

Lemma string_app_cons (c : ascii) (a x : string) :
  String c a +:+ x = String c (a +:+ x).
Proof. reflexivity. Qed.

Lemma has_slash_mid (a b : string) : has_slash (a +:+ String "/" b) = true.
Proof.
  rewrite has_slash_app. simpl. apply orb_true_r.
Qed.

(** Two strings that end alike after their last separator. *)
Lemma after_last_slash (a b x y : string) :
  has_slash x = false -> has_slash y = false ->
  a +:+ "/" +:+ x = b +:+ "/" +:+ y -> x = y.
Proof.
  intros Hx Hy. revert b.
  induction a as [| c a IH]; intros [| c' b] H;
    rewrite ?string_app_cons, ?string_app_nil in H.
  - injection H as H. exact H.
  - injection H as _ H. rewrite H in Hx.
    by rewrite (has_slash_mid b y) in Hx.
  - injection H as _ H. rewrite <- H in Hy.
    by rewrite (has_slash_mid a x) in Hy.
  - injection H as _ H. by apply (IH b).
Qed.

Section OneTask.
Context (z : zlib) (fuel : nat).

(** A batch of one task: once the threads have returned, the task has been
    run, once, on the store the pool was given. *)
Lemma single_task_pool (t : CompressionTask) (numThreads : Z)
    (sched : list nat) (fs : FS) :
  (1 <= numThreads)%Z ->
  let p := processFiles z fuel [t] numThreads sched fs in
  joined p = true ->
  let r := processFile z fuel fs (inputPath t) (outputPath t) (compress t)
             (level t) in
  store p = fs_after r /\ console p = printed r.
Proof.
  intros HN p Hj r.
  assert (pool_inv [t] p) as Hinv by apply run_schedule_inv, spawn_inv.
  assert (threads p <> []) as Hne.
  { intros E.
    assert (length (threads p) = Z.to_nat numThreads) as Hlen.
    { unfold p, processFiles. rewrite run_schedule_threads_length.
      cbn. apply length_replicate. }
    rewrite E in Hlen. cbn in Hlen. lia. }
  destruct (joined_all_run [t] p Hinv Hj Hne) as [_ Hperm].
  cbn in Hperm. apply Permutation_singleton_r in Hperm.
  pose proof (pool_replay z fuel [t] numThreads sched fs) as Hrep.
  cbv zeta in Hrep. fold p in Hrep. unfold executed_tasks in Hrep.
  rewrite omap_lookup_snd, Hperm in Hrep. cbn in Hrep.
  by injection Hrep.
Qed.

End OneTask.

(** X13. Case 2 of the menu, on a single file, writes to the output
    directory under the stem of the source's name, and does not look at the
    extension.  When that is the path of the source itself (a file whose
    name has no extension, decompressed into its own directory), the one
    task has the source as its destination: whatever the number of workers,
    once the threads have returned the file is empty and the console
    reports it as processed. *)
Theorem decompress_onto_itself_empties_the_file (P : path_api) (z : zlib)
    (fuel : nat) (path dir : string) (numThreads : Z)
    (sched : list nat) (fs : FS) (data : bytes) :
  path = dir +:+ "/" +:+ stem P path ->
  files fs !! path = Some data ->
  path ∉ noread fs -> path ∉ nowrite fs ->
  (1 <= numThreads)%Z ->
  let p := processFiles z (S fuel) (decompress_tasks P None path dir)
             numThreads sched fs in
  joined p = true ->
  files (store p) !! path = Some []
  /\ console p = [Cout ("Processed: " +:+ path +:+ " -> " +:+ path)].
Proof.
  intros Hpath Hin Hr Hw HN p Hj.
  unfold decompress_tasks in p.
  destruct (single_task_pool z (S fuel) _ numThreads sched fs HN Hj) as [Hs Hc].
  fold p in Hs, Hc. rewrite Hs, Hc. cbn [inputPath outputPath compress level].
  rewrite <- Hpath.
  rewrite (processFile_open z _ fs path path false 0 data Hin Hr Hw).
  cbv zeta. rewrite decide_True by done.
  rewrite chunk_loop_at_end by apply BUFFER_SIZE_pos.
  cbn. by rewrite lookup_insert_eq.
Qed.

(** The reference path functions keep to what the theorems below ask of the
    library: a file name holds no separator and is what the path ends
    with, after a separator when anything precedes it. *)
Lemma posix_filename_no_slash (s : string) : has_slash (Posix.filename s) = false.
Proof.
  induction s as [| c s IH]; [done |]. simpl.
  destruct (has_slash s) eqn:Hs; [done |].
  destruct (bool_decide (c = "/"%char)) eqn:Hc; [done |].
  simpl. by rewrite Hc, Hs.
Qed.

Lemma posix_filename_suffix (s : string) :
  s = Posix.filename s \/ exists d, s = d +:+ "/" +:+ Posix.filename s.
Proof.
  induction s as [| c s IH]; [by left |]. simpl.
  destruct (has_slash s) eqn:Hs.
  - right. destruct IH as [IH | [d IH]].
    + rewrite IH in Hs. by rewrite posix_filename_no_slash in Hs.
    + exists (String c d). rewrite string_app_cons. by rewrite <- IH.
  - destruct (bool_decide (c = "/"%char)) eqn:Hc; [| by left].
    right. exists "". apply bool_decide_eq_true in Hc as ->. reflexivity.
Qed.

(** X14. Case 1 of the menu never makes a task that writes its own source:
    the destination, the output directory followed by a separator, the
    source's file name and [.gz], differs from the source's path whenever
    file names hold no separator and end the paths they are taken from.  So
    on a single file, at every point of the run the source holds what it
    held. *)
Theorem compress_never_writes_its_source (P : path_api) (z : zlib) (fuel : nat)
    (listing : option (list dir_entry)) (path dir : string) (lvl : Z)
    (numThreads : Z) (sched : list nat) (fs : FS) :
  (forall q, has_slash (filename P q) = false) ->
  (forall q, q = filename P q \/ exists d, q = d +:+ "/" +:+ filename P q) ->
  Forall (fun t => outputPath t <> inputPath t)
    (compress_tasks P listing path dir lvl)
  /\ (listing = None ->
      let p := processFiles z fuel (compress_tasks P None path dir lvl)
                 numThreads sched fs in
      files (store p) !! path = files fs !! path).
Proof.
  intros Hslash Hsuffix.
  assert (forall q, dir +:+ "/" +:+ filename P q +:+ ".gz" <> q) as Hne.
  { intros q E. specialize (Hslash q). specialize (Hsuffix q).
    remember (filename P q) as f eqn:Hf. clear Hf.
    destruct Hsuffix as [-> | [d ->]].
    - apply (f_equal String.length) in E.
      rewrite !string_length_app in E. cbn in E. lia.
    - apply after_last_slash in E; [| | done].
      + apply (f_equal String.length) in E.
        rewrite string_length_app in E. cbn in E. lia.
      + by rewrite has_slash_app, Hslash. }
  split.
  - unfold compress_tasks. destruct listing as [entries |].
    + apply Forall_forall. intros t (e & _ & He)%list_elem_of_omap.
      destruct (is_regular_file e); [| done]. injection He as <-.
      cbn [inputPath outputPath]. apply Hne.
    + repeat constructor. cbn [inputPath outputPath]. apply Hne.
  - intros _ p.
    pose proof (pool_replay z fuel (compress_tasks P None path dir lvl)
                  numThreads sched fs) as Hrep.
    cbv zeta in Hrep. fold p in Hrep.
    assert (store p = (run_sequential z fuel fs
                         (executed_tasks (compress_tasks P None path dir lvl) p)).1)
      as -> by (by rewrite <- Hrep).
    apply run_sequential_frame.
    intros t Ht%executed_tasks_in. unfold compress_tasks in Ht.
    apply list_elem_of_singleton in Ht as ->. cbn [outputPath]. apply Hne.
Qed.

(** ** The size of the buffers *)

Lemma read_length (s : ifstream) (n : nat) : length (ifstream_read s n).1 <= n.
Proof.
  unfold ifstream_read. destruct (eofbit s); [cbn; lia |].
  destruct (Nat.leb_spec n (length (unread s))); cbn [fst].
  - rewrite length_take. lia.
  - lia.
Qed.

Section Buffers.
Context (z : zlib).

Lemma drain_avail_in (dfuel : nat) (c eof : bool) (outsz n : nat)
    (zs : zstate z) (avail : bytes) :
  consumes_input z -> length avail <= n ->
  Forall (fun k => call_avail_in k <= n)
    (lcalls (drain z dfuel c eof outsz zs avail)).
Proof.
  intros Hz. revert zs avail.
  induction dfuel as [| dfuel IH]; intros zs avail Hn; [constructor |].
  assert (call_avail_in (transform_call c eof avail
            (ret (transform z c eof zs avail outsz))) <= n) as Hcall
    by (by destruct c).
  cbn [drain]. cbv zeta. repeat case_match; cbn [lcalls].
  - constructor; [done | constructor].
  - constructor; [done |]. apply IH.
    pose proof (Hz c eof zs avail outsz). lia.
  - constructor; [done | constructor].
Qed.

Lemma chunk_loop_avail_in (fuel dfuel : nat) (c : bool) (insz outsz : nat)
    (inFile : ifstream) (zs : zstate z) :
  consumes_input z ->
  Forall (fun k => call_avail_in k <= insz)
    (lcalls (chunk_loop z fuel dfuel c insz outsz inFile zs)).
Proof.
  intros Hz. revert inFile zs.
  induction fuel as [| fuel IH]; intros inFile zs; [constructor |].
  cbn [chunk_loop]. cbv zeta.
  pose proof (read_length inFile insz) as Hlen.
  destruct (ifstream_read inFile insz) as [chunk inFile']. cbn [fst] in Hlen.
  destruct (length chunk =? 0); [constructor |].
  pose proof (drain_avail_in dfuel c (eofbit inFile') outsz insz zs chunk Hz Hlen)
    as Hd.
  destruct (lstatus (drain z dfuel c (eofbit inFile') outsz zs chunk));
    [| done | done].
  cbn [lcalls]. apply Forall_app. split; [done | apply IH].
Qed.

(** X15. Whatever the size of the source, no call hands the transform more
    than one buffer of input, provided the transform leaves at [next_in] no
    more than it was given: the working memory of a run does not grow with
    the file. *)
Theorem input_is_one_buffer_at_most (fuel : nat) (fs : FS) (inp outp : string)
    (c : bool) (lvl : Z) :
  consumes_input z ->
  Forall (fun k => call_avail_in k <= BUFFER_SIZE)
    (calls (processFile z fuel fs inp outp c lvl)).
Proof.
  intros Hz. unfold processFile.
  destruct (can_open_in fs inp); cbn [negb]; [| constructor].
  destruct (can_open_out fs outp); cbn [negb]; [| constructor].
  cbv zeta.
  match goal with |- context [chunk_loop z ?a ?b ?c0 ?d ?e ?f ?g] =>
    pose proof (chunk_loop_avail_in a b c0 d e f g Hz) as Hall;
    destruct (lstatus (chunk_loop z a b c0 d e f g))
  end; cbn [calls].
  - constructor; [destruct c; cbn; lia |]. apply Forall_app. split; [done |].
    constructor; [destruct c; cbn; lia | constructor].
  - constructor; [destruct c; cbn; lia | done].
  - constructor; [destruct c; cbn; lia | done].
Qed.

End Buffers.

Lemma ref_consumes_input : consumes_input Ref.api.
Proof.
  intros c eof zs avail outsz.
  destruct c; cbn [transform deflate inflate Ref.api].
  - unfold Ref.deflate. destruct zs as [fin held pending | i |];
      cbn [rest_in]; [| lia | lia].
    destruct fin; cbn [length]; lia.
  - unfold Ref.inflate, Ref.inflate_body.
    destruct zs as [fin held pending | [| |] |]; cbn [rest_in]; try lia.
    + destruct avail as [| h t]; [cbn; lia |].
      destruct (Byte.eqb h Ref.magic); cbn [rest_in length]; [| lia].
      rewrite length_drop. lia.
    + rewrite length_drop. lia.
Qed.

(** ** The further properties on concrete stores *)

Lemma menu_sample_readable (p : string) : p ∉ noread MenuSample.disk.
Proof. unfold MenuSample.disk. cbn [noread]. apply not_elem_of_empty. Qed.

Lemma menu_sample_barred : "data/a.gz" ∈ nowrite MenuSample.disk.
Proof. unfold MenuSample.disk. cbn [nowrite]. by apply elem_of_singleton. Qed.

Lemma menu_sample_writable (p : string) :
  p <> "data/a.gz" -> p ∉ nowrite MenuSample.disk.
Proof.
  unfold MenuSample.disk. cbn [nowrite]. intros H. by rewrite elem_of_singleton.
Qed.

Lemma sample_no_benchmark_file (i : Z) :
  (0 <= i < 4)%Z ->
  files Sample.disk !! (Benchmark.testFile +:+ Benchmark.to_string i) = None.
Proof.
  intros H.
  assert (i = 0 \/ i = 1 \/ i = 2 \/ i = 3)%Z as [-> | [-> | [-> | ->]]] by lia;
    reflexivity.
Qed.

Lemma same_path_empties_the_file_witness :
  files Sample.disk !! "notes.txt" = Some [x68; x69]
  /\ let r := processFile Ref.api 1 Sample.disk "notes.txt" "notes.txt" true 6 in
     status r = Processed
     /\ files (fs_after r) !! "notes.txt" = Some []
     /\ calls r = [CdeflateInit 6; CdeflateEnd].
Proof.
  assert (files Sample.disk !! "notes.txt" = Some [x68; x69]) as H by reflexivity.
  split; [exact H |].
  destruct (same_path_empties_the_file Ref.api 0 Sample.disk "notes.txt" true 6
              [x68; x69] H (sample_readable "notes.txt" ltac:(discriminate))
              (sample_writable _))
    as (H1 & H2 & H3 & _).
  auto.
Defined.

Lemma destination_failure_leaves_store_witness :
  is_Some (files MenuSample.disk !! "data/a")
  /\ "data/a.gz" ∈ nowrite MenuSample.disk
  /\ let r := processFile Ref.api 4 MenuSample.disk "data/a" "data/a.gz" true 6 in
     fs_after r = MenuSample.disk
     /\ status r = OutputOpenError
     /\ printed r = [Cerr ("Error opening output file: " +:+ "data/a.gz")]
     /\ calls r = [].
Proof.
  assert (is_Some (files MenuSample.disk !! "data/a")) as H by (by eexists).
  split; [exact H |]. split; [apply menu_sample_barred |].
  exact (destination_failure_leaves_store Ref.api 4 MenuSample.disk "data/a"
           "data/a.gz" true 6 H (menu_sample_readable _) menu_sample_barred).
Defined.

Lemma rerun_changes_nothing_witness :
  "notes.txt" <> "out/notes.txt.gz"
  /\ let r := processFile Ref.api 4 Sample.disk "notes.txt" "out/notes.txt.gz"
                true 6 in
     let r' := processFile Ref.api 4 (fs_after r) "notes.txt" "out/notes.txt.gz"
                 true 6 in
     fs_after r' = fs_after r
     /\ printed r' = printed r /\ status r' = status r /\ calls r' = calls r.
Proof.
  split; [discriminate |].
  exact (rerun_changes_nothing Ref.api 4 Sample.disk "notes.txt"
           "out/notes.txt.gz" true 6 ltac:(discriminate)).
Defined.

Lemma pool_touches_destinations_only_witness :
  (forall t, t ∈ [Sample.notes; Sample.locked; Sample.empty] ->
     outputPath t <> "garbage.gz")
  /\ let p := processFiles Ref.api 4 [Sample.notes; Sample.locked; Sample.empty] 2
                [0; 1; 0; 1; 0; 1; 0; 1; 0] Sample.disk in
     files (store p) !! "garbage.gz" = Some [x00; x01]
     /\ noread (store p) = noread Sample.disk
     /\ nowrite (store p) = nowrite Sample.disk.
Proof.
  assert (forall t, t ∈ [Sample.notes; Sample.locked; Sample.empty] ->
            outputPath t <> "garbage.gz") as H.
  { intros t Ht. repeat (apply elem_of_cons in Ht as [-> | Ht]); try discriminate.
    by apply elem_of_nil in Ht. }
  split; [exact H |].
  destruct (pool_touches_destinations_only Ref.api 4
              [Sample.notes; Sample.locked; Sample.empty] 2
              [0; 1; 0; 1; 0; 1; 0; 1; 0] Sample.disk "garbage.gz" H)
    as (H1 & H2 & H3).
  cbv zeta. split; [| by split]. rewrite H1. reflexivity.
Defined.

Lemma independent_tasks_any_schedule_witness :
  pairwise_independent [Sample.notes; Sample.empty]
  /\ (1 <= 2)%Z
  /\ let p := processFiles Ref.api 4 [Sample.notes; Sample.empty] 2
                [1; 0; 1; 0; 0; 1; 0] Sample.disk in
     joined p = true
     /\ store p = (run_sequential Ref.api 4 Sample.disk
                     [Sample.notes; Sample.empty]).1
     /\ console p ≡ₚ (run_sequential Ref.api 4 Sample.disk
                        [Sample.notes; Sample.empty]).2.
Proof.
  assert (pairwise_independent [Sample.notes; Sample.empty]) as H.
  { cbn [pairwise_independent]. split; [| by split].
    constructor; [| constructor]. by repeat split. }
  split; [exact H |]. split; [lia |].
  cbv zeta. split; [reflexivity |].
  exact (independent_tasks_any_schedule Ref.api 4 [Sample.notes; Sample.empty] 2
           [1; 0; 1; 0; 0; 1; 0] Sample.disk H ltac:(lia) eq_refl).
Defined.

Lemma run_has_2M_plus_N_steps_witness :
  (1 <= 2)%Z
  /\ all_live Ref.api 4 [Sample.notes; Sample.empty] [1; 0; 1; 0; 0; 1]
       (spawn 2 Sample.disk) = true
  /\ let p := processFiles Ref.api 4 [Sample.notes; Sample.empty] 2
                [1; 0; 1; 0; 0; 1] Sample.disk in
     joined p = true.
Proof.
  assert (all_live Ref.api 4 [Sample.notes; Sample.empty] [1; 0; 1; 0; 0; 1]
            (spawn 2 Sample.disk) = true) as H by reflexivity.
  split; [lia |]. split; [exact H |].
  destruct (run_has_2M_plus_N_steps Ref.api 4 [Sample.notes; Sample.empty] 2
              [1; 0; 1; 0; 0; 1] Sample.disk ltac:(lia) H) as (_ & Hj).
  apply Hj. reflexivity.
Defined.

Lemma benchmark_multi_opens_nothing_witness :
  (forall i, (0 <= i < 4)%Z ->
     files Sample.disk !! (Benchmark.testFile +:+ Benchmark.to_string i) = None)
  /\ let p1 := (Benchmark.run Ref.api 4 [0; 0; 0] [3; 2; 1; 0] Sample.disk).1 in
     let p2 := (Benchmark.run Ref.api 4 [0; 0; 0] [3; 2; 1; 0] Sample.disk).2 in
     store p2 = store p1.
Proof.
  split; [exact sample_no_benchmark_file |].
  exact (proj1 (benchmark_multi_opens_nothing Ref.api 4 [0; 0; 0] [3; 2; 1; 0]
                  Sample.disk sample_no_benchmark_file)).
Defined.

Lemma benchmark_file_never_finished_witness :
  files Sample.disk !! Benchmark.testFile = None
  /\ let fs1 := Benchmark.create_test_file Sample.disk in
     files fs1 !! Benchmark.testFile = Some Benchmark.test_data
     /\ length Benchmark.test_data = 100 * BUFFER_SIZE.
Proof.
  assert (files Sample.disk !! Benchmark.testFile = None) as H by reflexivity.
  split; [exact H |].
  destruct (benchmark_file_never_finished Ref.api 200 Sample.disk H
              (sample_writable _)
              (sample_readable Benchmark.testFile ltac:(discriminate))
              (sample_writable _)) as (H1 & H2 & _).
  split; [exact H1 | exact H2].
Defined.

Lemma decompress_onto_itself_empties_the_file_witness :
  "data/a" = "data" +:+ "/" +:+ stem Posix.api "data/a"
  /\ files MenuSample.disk !! "data/a" = Some [x68; x69]
  /\ (1 <= 1)%Z
  /\ let p := processFiles Ref.api 4
                (decompress_tasks Posix.api None "data/a" "data") 1 [0; 0; 0]
                MenuSample.disk in
     joined p = true
     /\ files (store p) !! "data/a" = Some []
     /\ console p = [Cout ("Processed: " +:+ "data/a" +:+ " -> " +:+ "data/a")].
Proof.
  assert ("data/a" = "data" +:+ "/" +:+ stem Posix.api "data/a") as H1
    by reflexivity.
  assert (files MenuSample.disk !! "data/a" = Some [x68; x69]) as H2
    by reflexivity.
  split; [exact H1 |]. split; [exact H2 |]. split; [lia |].
  cbv zeta. split; [reflexivity |].
  exact (decompress_onto_itself_empties_the_file Posix.api Ref.api 3 "data/a"
           "data" 1 [0; 0; 0] MenuSample.disk [x68; x69] H1 H2
           (menu_sample_readable _)
           (menu_sample_writable "data/a" ltac:(discriminate))
           ltac:(lia) eq_refl).
Defined.

Lemma compress_never_writes_its_source_witness :
  (forall q, has_slash (filename Posix.api q) = false)
  /\ (forall q, q = filename Posix.api q
                \/ exists d, q = d +:+ "/" +:+ filename Posix.api q)
  /\ Forall (fun t => outputPath t <> inputPath t)
       (compress_tasks Posix.api (Some MenuSample.listing) "data" "data" 6)
  /\ compress_tasks Posix.api (Some MenuSample.listing) "data" "data" 6 =
       [ {| inputPath := "data/a"; outputPath := "data/a.gz";
            compress := true; level := 6 |};
         {| inputPath := "data/a.gz"; outputPath := "data/a.gz.gz";
            compress := true; level := 6 |} ].
Proof.
  split; [exact posix_filename_no_slash |].
  split; [exact posix_filename_suffix |].
  split; [| reflexivity].
  exact (proj1 (compress_never_writes_its_source Posix.api Ref.api 4
                  (Some MenuSample.listing) "data" "data" 6 1 [] MenuSample.disk
                  posix_filename_no_slash posix_filename_suffix)).
Defined.

Lemma input_is_one_buffer_at_most_witness :
  consumes_input Ref.api
  /\ Forall (fun k => call_avail_in k <= BUFFER_SIZE)
       (calls (processFile Ref.api 4 Sample.disk "notes.txt" "out/notes.txt.gz"
                 true 6)).
Proof.
  split; [exact ref_consumes_input |].
  exact (input_is_one_buffer_at_most Ref.api 4 Sample.disk "notes.txt"
           "out/notes.txt.gz" true 6 ref_consumes_input).
Defined.
